(** * Electronic Circuit Analyzer: the component ledger of [Source.cpp]

    A shallow embedding of the non-graphical core of [Source.cpp]: the global
    component list, the two group lists, the undo stack, the operation queue
    and the id counter, together with the functions that read and write them
    ([PushSnapshot], [AddComponent], [RemoveComponent], [FindComponent],
    [Undo], [CalcSeries], [CalcParallel], [CalcSeriesImpedance],
    [CalcParallelImpedance]) and the click handler of the "Add" screen.
    Beside them: the click handlers of the "Remove" screen and of the "Undo"
    menu entry, [HandleTextInput], [ClampU8] and the fill colour of
    [DrawButtonEx].  The drawing code and the "Search" screen, which keeps a
    raw pointer into the component list, are not modelled.

    Conventions.
    - [double] is IEEE binary64, modelled by Rocq's primitive floats.
    - [int] is modelled by [Z].  The only arithmetic on an [int] is
      [nextId++]; signed overflow is undefined in C++, so the model describes
      the executions with fewer than 2^31 - 1 additions.
    - The program keeps its state in global variables; here they are the
      fields of [Globals] and every function is a computation in the state
      monad [M] over [Globals].  A [void] function returns [unit].
    - [std::list] is a [list]; [std::stack] is a list with its top first;
      [std::queue] is a list with its front first.
    - Functions of the C++ standard library whose results are fixed by the
      implementation and not by this program (printing a [double] on a
      stream, [std::stod], division and modulus of [std::complex<double>])
      are the fields of the class [CxxLib], over which the model is
      parametric; [std::stoi] is a variable of the handlers that use it. *)

From Stdlib Require Import Floats ZArith List String Bool Lia.
From Stdlib Require Import DecimalString Sorted.
Import ListNotations.

Local Open Scope Z_scope.

(** ** Data structures *)

Inductive ComponentType := RESISTOR | CAPACITOR | INDUCTOR.
Inductive CircuitType := SERIES | PARALLEL.

Record Component := mkComponent {
  id : Z;
  type : ComponentType;
  value : float;
  circuitType : CircuitType
}.

Record Operation := mkOperation { description : string }.

(** [std::complex<double>], alias [cd] in the source. *)
Record cd := mkcd { real : float; imag : float }.

Definition ComponentType_eqb (a b : ComponentType) : bool :=
  match a, b with
  | RESISTOR, RESISTOR | CAPACITOR, CAPACITOR | INDUCTOR, INDUCTOR => true
  | _, _ => false
  end.

Definition CircuitType_eqb (a b : CircuitType) : bool :=
  match a, b with
  | SERIES, SERIES | PARALLEL, PARALLEL => true
  | _, _ => false
  end.

(** The global variables of the program that the modelled functions touch. *)
Record Globals := mkGlobals {
  componentsData : list Component;
  seriesCircuit : list Z;
  parallelCircuit : list Z;
  undoStack : list (list Component);
  opQueue : list Operation;
  nextId : Z;
  textBuffer : string;
  addType : ComponentType;
  addCircuit : CircuitType;
  statusMessage : string
}.

(** The values the globals are initialised with. *)
Definition initial : Globals :=
  {| componentsData := []; seriesCircuit := []; parallelCircuit := [];
     undoStack := []; opQueue := []; nextId := 1;
     textBuffer := EmptyString; addType := RESISTOR; addCircuit := SERIES;
     statusMessage := EmptyString |}.

Definition set_componentsData (f : list Component -> list Component) (g : Globals) :=
  {| componentsData := f (componentsData g); seriesCircuit := seriesCircuit g;
     parallelCircuit := parallelCircuit g; undoStack := undoStack g;
     opQueue := opQueue g; nextId := nextId g; textBuffer := textBuffer g;
     addType := addType g; addCircuit := addCircuit g;
     statusMessage := statusMessage g |}.

Definition set_seriesCircuit (f : list Z -> list Z) (g : Globals) :=
  {| componentsData := componentsData g; seriesCircuit := f (seriesCircuit g);
     parallelCircuit := parallelCircuit g; undoStack := undoStack g;
     opQueue := opQueue g; nextId := nextId g; textBuffer := textBuffer g;
     addType := addType g; addCircuit := addCircuit g;
     statusMessage := statusMessage g |}.

Definition set_parallelCircuit (f : list Z -> list Z) (g : Globals) :=
  {| componentsData := componentsData g; seriesCircuit := seriesCircuit g;
     parallelCircuit := f (parallelCircuit g); undoStack := undoStack g;
     opQueue := opQueue g; nextId := nextId g; textBuffer := textBuffer g;
     addType := addType g; addCircuit := addCircuit g;
     statusMessage := statusMessage g |}.

Definition set_undoStack
    (f : list (list Component) -> list (list Component)) (g : Globals) :=
  {| componentsData := componentsData g; seriesCircuit := seriesCircuit g;
     parallelCircuit := parallelCircuit g; undoStack := f (undoStack g);
     opQueue := opQueue g; nextId := nextId g; textBuffer := textBuffer g;
     addType := addType g; addCircuit := addCircuit g;
     statusMessage := statusMessage g |}.

Definition set_opQueue (f : list Operation -> list Operation) (g : Globals) :=
  {| componentsData := componentsData g; seriesCircuit := seriesCircuit g;
     parallelCircuit := parallelCircuit g; undoStack := undoStack g;
     opQueue := f (opQueue g); nextId := nextId g; textBuffer := textBuffer g;
     addType := addType g; addCircuit := addCircuit g;
     statusMessage := statusMessage g |}.

Definition set_nextId (f : Z -> Z) (g : Globals) :=
  {| componentsData := componentsData g; seriesCircuit := seriesCircuit g;
     parallelCircuit := parallelCircuit g; undoStack := undoStack g;
     opQueue := opQueue g; nextId := f (nextId g); textBuffer := textBuffer g;
     addType := addType g; addCircuit := addCircuit g;
     statusMessage := statusMessage g |}.

Definition set_textBuffer (f : string -> string) (g : Globals) :=
  {| componentsData := componentsData g; seriesCircuit := seriesCircuit g;
     parallelCircuit := parallelCircuit g; undoStack := undoStack g;
     opQueue := opQueue g; nextId := nextId g; textBuffer := f (textBuffer g);
     addType := addType g; addCircuit := addCircuit g;
     statusMessage := statusMessage g |}.

Definition set_statusMessage (f : string -> string) (g : Globals) :=
  {| componentsData := componentsData g; seriesCircuit := seriesCircuit g;
     parallelCircuit := parallelCircuit g; undoStack := undoStack g;
     opQueue := opQueue g; nextId := nextId g; textBuffer := textBuffer g;
     addType := addType g; addCircuit := addCircuit g;
     statusMessage := f (statusMessage g) |}.

(** ** The state monad over the globals *)

Definition M (A : Type) : Type := Globals -> A * Globals.

Definition ret {A} (a : A) : M A := fun g => (a, g).

Definition bind {A B} (m : M A) (k : A -> M B) : M B :=
  fun g => let (a, g') := m g in k a g'.

Definition gets {A} (f : Globals -> A) : M A := fun g => (f g, g).

Definition modify (f : Globals -> Globals) : M unit := fun g => (tt, f g).

Declare Scope ledger_scope.
Delimit Scope ledger_scope with ledger.
Notation "x <- m ;; k" := (bind m (fun x => k))
  (at level 61, m at next level, right associativity) : ledger_scope.
Notation "m ;; k" := (bind m (fun _ => k))
  (at level 61, right associativity) : ledger_scope.
Local Open Scope ledger_scope.

(** ** Containers *)

(** [l.push_back(x)] *)
Definition push_back {A} (x : A) (l : list A) : list A := l ++ [x].

(** [std::list<int>::remove(v)]: erases every element equal to [v]. *)
Fixpoint list_remove (v : Z) (l : list Z) : list Z :=
  match l with
  | [] => []
  | x :: r => if x =? v then list_remove v r else x :: list_remove v r
  end.

(** ** Complex arithmetic fixed by the C++ standard

    Addition, negation, comparison, and multiplication or division of a
    complex number by a scalar act on the two parts separately. *)

Definition J : cd := mkcd 0 1.

Definition cd_add (a b : cd) : cd :=
  mkcd (real a + real b)%float (imag a + imag b)%float.

Definition cd_neg (a : cd) : cd := mkcd (- real a)%float (- imag a)%float.

Definition cd_scale (a : cd) (t : float) : cd :=
  mkcd (real a * t)%float (imag a * t)%float.

Definition cd_div_scalar (a : cd) (t : float) : cd :=
  mkcd (real a / t)%float (imag a / t)%float.

Definition cd_eqb (a b : cd) : bool :=
  (real a =? real b)%float && (imag a =? imag b)%float.

Definition cd_neqb (a b : cd) : bool := negb (cd_eqb a b).

(** [M_PI] as the source defines it; the literal denotes this binary64 value. *)
Definition M_PI : float := 0x1.921fb54442d18p+1%float.

Definition analysisFrequencyHz : float := 50%float.

(** ** Library functions the model is parametric in *)

Class CxxLib := {
  (** [ostream << double] with the default format. *)
  ostream_double : float -> string;
  (** [std::stod]; [None] when it throws. *)
  stod : string -> option float;
  (** [operator/] on two [std::complex<double>]. *)
  complex_div : cd -> cd -> cd;
  (** [std::abs] on a [std::complex<double>]. *)
  complex_abs : cd -> float
}.

(** [ostream << int]: decimal digits, with a minus sign when negative. *)
Definition ostream_int (n : Z) : string := NilZero.string_of_int (Z.to_int n).

Definition TypeToString (t : ComponentType) : string :=
  match t with
  | RESISTOR => "Resistor"
  | CAPACITOR => "Capacitor"
  | INDUCTOR => "Inductor"
  end.

Section Ledger.

Context {lib : CxxLib}.

(** ** Calculations *)

Definition CalcImpedanceR (R : float) : float := R.

Definition CalcImpedanceL (L freqHz : float) : float :=
  let omega := (2 * M_PI * freqHz)%float in
  (omega * L)%float.

Definition CalcImpedanceC (C freqHz : float) : float :=
  let omega := (2 * M_PI * freqHz)%float in
  if (C =? 0)%float then 1e10%float else (1 / (omega * C))%float.

(** A [Component*] is [None] when null. *)
Definition GetComponentImpedanceComplex (c : option Component) (freqHz : float) : cd :=
  match c with
  | None => mkcd 0 0
  | Some c =>
      if ComponentType_eqb (type c) RESISTOR then mkcd (value c) 0
      else
        let omega := (2 * M_PI * freqHz)%float in
        if ComponentType_eqb (type c) INDUCTOR then
          cd_scale (cd_scale J omega) (value c)
        else if (value c =? 0)%float then mkcd 1e10 0
        else cd_div_scalar (cd_neg J) (omega * value c)%float
  end.

Definition GetComponentImpedance (c : option Component) (freqHz : float) : float :=
  match c with
  | None => 0%float
  | Some c =>
      if ComponentType_eqb (type c) RESISTOR then CalcImpedanceR (value c)
      else if ComponentType_eqb (type c) CAPACITOR then CalcImpedanceC (value c) freqHz
      else CalcImpedanceL (value c) freqHz
  end.

(** ** The ledger *)

Definition PushSnapshot (desc : string) : M unit :=
  modify (fun g => set_undoStack (cons (componentsData g)) g) ;;
  modify (set_opQueue (push_back (mkOperation desc))) ;;
  n <- gets (fun g => List.length (opQueue g)) ;;
  if (20 <? n)%nat then modify (set_opQueue (@tl _)) else ret tt.

Definition AddComponent (type : ComponentType) (value : float) (circuit : CircuitType)
  : M unit :=
  n <- gets nextId ;;
  modify (set_componentsData (push_back (mkComponent n type value circuit))) ;;
  (if CircuitType_eqb circuit SERIES
   then modify (set_seriesCircuit (push_back n))
   else modify (set_parallelCircuit (push_back n))) ;;
  PushSnapshot
    ("Added " ++ TypeToString type ++ " to "
     ++ (if CircuitType_eqb circuit SERIES then "SERIES" else "PARALLEL")
     ++ " circuit (ID=" ++ ostream_int n ++ ", value=" ++ ostream_double value
     ++ ")")%string ;;
  modify (set_nextId Z.succ).

(** The scan of [RemoveComponent] and [FindComponent]: the first element whose
    id is [id0]. *)
Fixpoint find_first (id0 : Z) (l : list Component) : option Component :=
  match l with
  | [] => None
  | c :: r => if id c =? id0 then Some c else find_first id0 r
  end.

(** [componentsData.erase(it)] for the iterator the scan of [RemoveComponent]
    stops at: the list without its first element whose id is [id0]. *)
Fixpoint erase_first (id0 : Z) (l : list Component) : list Component :=
  match l with
  | [] => []
  | c :: r => if id c =? id0 then r else c :: erase_first id0 r
  end.

Definition RemoveComponent (id0 : Z) : M bool :=
  cs <- gets componentsData ;;
  match find_first id0 cs with
  | Some _ =>
      modify (set_seriesCircuit (list_remove id0)) ;;
      modify (set_parallelCircuit (list_remove id0)) ;;
      PushSnapshot ("Removed component ID=" ++ ostream_int id0)%string ;;
      modify (set_componentsData (erase_first id0)) ;;
      ret true
  | None => ret false
  end.

Definition FindComponent (id0 : Z) : M (option Component) :=
  cs <- gets componentsData ;;
  ret (find_first id0 cs).

(** The loop of [Undo] that refills the two group lists. *)
Fixpoint Undo_rebuild (l : list Component) : M unit :=
  match l with
  | [] => ret tt
  | c :: r =>
      (if CircuitType_eqb (circuitType c) SERIES
       then modify (set_seriesCircuit (push_back (id c)))
       else modify (set_parallelCircuit (push_back (id c)))) ;;
      Undo_rebuild r
  end.

Definition Undo : M unit :=
  st <- gets undoStack ;;
  match st with
  | [] => ret tt
  | top :: _ =>
      modify (set_componentsData (fun _ => top)) ;;
      modify (set_undoStack (@tl _)) ;;
      modify (set_seriesCircuit (fun _ => [])) ;;
      modify (set_parallelCircuit (fun _ => [])) ;;
      cs <- gets componentsData ;;
      Undo_rebuild cs
  end.

(** ** Aggregate queries *)

Fixpoint CalcSeries_loop (ids : list Z) (sum : float) : M float :=
  match ids with
  | [] => ret sum
  | i :: r =>
      c <- FindComponent i ;;
      match c with
      | Some c =>
          if ComponentType_eqb (type c) RESISTOR
          then CalcSeries_loop r (sum + value c)%float
          else CalcSeries_loop r sum
      | None => CalcSeries_loop r sum
      end
  end.

Definition CalcSeries (ids : list Z) : M float := CalcSeries_loop ids 0%float.

Fixpoint CalcParallel_loop (ids : list Z) (inv : float) : M float :=
  match ids with
  | [] => ret inv
  | i :: r =>
      c <- FindComponent i ;;
      match c with
      | Some c =>
          if ComponentType_eqb (type c) RESISTOR && negb (value c =? 0)%float
          then CalcParallel_loop r (inv + 1 / value c)%float
          else CalcParallel_loop r inv
      | None => CalcParallel_loop r inv
      end
  end.

Definition CalcParallel (ids : list Z) : M float :=
  inv <- CalcParallel_loop ids 0%float ;;
  if (inv =? 0)%float then ret 0%float else ret (1 / inv)%float.

Fixpoint CalcSeriesImpedance_loop (ids : list Z) (freqHz : float) (sum : cd) : M cd :=
  match ids with
  | [] => ret sum
  | i :: r =>
      c <- FindComponent i ;;
      match c with
      | Some _ =>
          CalcSeriesImpedance_loop r freqHz
            (cd_add sum (GetComponentImpedanceComplex c freqHz))
      | None => CalcSeriesImpedance_loop r freqHz sum
      end
  end.

Definition CalcSeriesImpedance (ids : list Z) (freqHz : float) : M float :=
  sum <- CalcSeriesImpedance_loop ids freqHz (mkcd 0 0) ;;
  ret (complex_abs sum).

Fixpoint CalcParallelImpedance_loop (ids : list Z) (freqHz : float) (inv : cd) : M cd :=
  match ids with
  | [] => ret inv
  | i :: r =>
      c <- FindComponent i ;;
      match c with
      | Some _ =>
          let z := GetComponentImpedanceComplex c freqHz in
          if cd_neqb z (mkcd 0 0)
          then CalcParallelImpedance_loop r freqHz
                 (cd_add inv (complex_div (mkcd 1 0) z))
          else CalcParallelImpedance_loop r freqHz inv
      | None => CalcParallelImpedance_loop r freqHz inv
      end
  end.

Definition CalcParallelImpedance (ids : list Z) (freqHz : float) : M float :=
  inv <- CalcParallelImpedance_loop ids freqHz (mkcd 0 0) ;;
  if cd_eqb inv (mkcd 0 0) then ret 0%float
  else
    let ztot := complex_div (mkcd 1 0) inv in
    ret (complex_abs ztot).

(** ** The "Add" button of [DrawAddScreen] *)

Definition StringToDoubleSafe (s : string) : float * bool :=
  if String.eqb s EmptyString then (0%float, false)
  else match stod s with
       | Some v => (v, true)
       | None => (0%float, false)
       end.

(** What [DrawAddScreen] does in the frame in which the "Add" button is
    released: the only call of [AddComponent] in the program. *)
Definition DrawAddScreen_AddReleased : M unit :=
  buf <- gets textBuffer ;;
  let (v, ok) := StringToDoubleSafe buf in
  if ok && (0 <? v)%float then
    t <- gets addType ;;
    c <- gets addCircuit ;;
    AddComponent t v c ;;
    modify (set_statusMessage (fun _ => "Component added successfully!"%string)) ;;
    modify (set_textBuffer (fun _ => EmptyString))
  else
    modify (set_statusMessage (fun _ => "Invalid value. Enter a positive number."%string)).

(** ** Sequences of ledger calls *)

Inductive Call :=
| CallAdd (type : ComponentType) (value : float) (circuit : CircuitType)
| CallRemove (id0 : Z)
| CallUndo.

Definition exec (c : Call) : M unit :=
  match c with
  | CallAdd t v ct => AddComponent t v ct
  | CallRemove i => _ <- RemoveComponent i ;; ret tt
  | CallUndo => Undo
  end.

Fixpoint run (cs : list Call) : M unit :=
  match cs with
  | [] => ret tt
  | c :: r => exec c ;; run r
  end.

(** The state after a computation, and its result. *)
Definition state_after {A} (m : M A) (g : Globals) : Globals := snd (m g).
Definition result_of {A} (m : M A) (g : Globals) : A := fst (m g).

(** The components a call appended: those the collection holds after the
    call beyond the length it had before. *)
Definition appended (before after : Globals) : list Component :=
  skipn (List.length (componentsData before)) (componentsData after).

(** The ids given out by the additions of a sequence of calls started in [g],
    in the order in which they are given out: the [id] field of the
    component each addition appends to the collection. *)
Fixpoint assigned_ids (cs : list Call) (g : Globals) : list Z :=
  match cs with
  | [] => []
  | c :: r =>
      let g' := state_after (exec c) g in
      match c with
      | CallAdd _ _ _ => map id (appended g g')
      | _ => []
      end ++ assigned_ids r g'
  end.

End Ledger.

(** ** Vocabulary of the properties *)

(** The ids of a component list, in list order. *)
Definition ids (l : list Component) : list Z := map id l.

Definition in_series (c : Component) : bool := CircuitType_eqb (circuitType c) SERIES.

(** The ids of the components of a list marked SERIES, resp. not marked SERIES,
    in list order. *)
Definition series_of (l : list Component) : list Z := ids (filter in_series l).
Definition parallel_of (l : list Component) : list Z :=
  ids (filter (fun c => negb (in_series c)) l).

(** Every component of [l] has an id below [n]. *)
Definition below (n : Z) (l : list Component) : Prop := Forall (fun c => id c < n) l.

(** The property of the spec: the two group lists together hold exactly the
    ids of the collection, and no id is in both. *)
Definition membership_invariant (g : Globals) : Prop :=
  (forall i, In i (seriesCircuit g) \/ In i (parallelCircuit g)
             <-> In i (ids (componentsData g)))
  /\ (forall i, ~ (In i (seriesCircuit g) /\ In i (parallelCircuit g))).

(** What the ledger functions keep true, and what [membership_invariant]
    follows from: ids are pairwise distinct and below [nextId], in the
    collection and in every snapshot, and each group list is the projection
    of the collection. *)
Record consistent (g : Globals) : Prop := mkConsistent {
  ids_below : below (nextId g) (componentsData g);
  ids_nodup : NoDup (ids (componentsData g));
  series_sync : seriesCircuit g = series_of (componentsData g);
  parallel_sync : parallelCircuit g = parallel_of (componentsData g);
  stack_sound :
    Forall (fun s => NoDup (ids s) /\ below (nextId g) s) (undoStack g)
}.

(** The ledger part of the globals, which the user-interface strings are not
    part of. *)
Definition ledger_of (g : Globals) :=
  (componentsData g, seriesCircuit g, parallelCircuit g, undoStack g,
   opQueue g, nextId g).

(** The state [Undo] leaves when the top of the stack is [top] and the rest
    of the stack is [rest]. *)
Definition restored (top : list Component) (rest : list (list Component))
    (g : Globals) : Globals :=
  {| componentsData := top; seriesCircuit := series_of top;
     parallelCircuit := parallel_of top; undoStack := rest;
     opQueue := opQueue g; nextId := nextId g; textBuffer := textBuffer g;
     addType := addType g; addCircuit := addCircuit g;
     statusMessage := statusMessage g |}.

(** The operation queue after [PushSnapshot] has logged [desc]. *)
Definition logged (desc : string) (q : list Operation) : list Operation :=
  if (20 <? List.length (q ++ [mkOperation desc]))%nat
  then tl (q ++ [mkOperation desc])
  else q ++ [mkOperation desc].

Section Effects.

Context {lib : CxxLib}.

(** The text [AddComponent] logs. *)
Definition added_text (n : Z) (t : ComponentType) (v : float) (ct : CircuitType)
  : string :=
  ("Added " ++ TypeToString t ++ " to "
   ++ (if CircuitType_eqb ct SERIES then "SERIES" else "PARALLEL")
   ++ " circuit (ID=" ++ ostream_int n ++ ", value=" ++ ostream_double v
   ++ ")")%string.

(** The state [AddComponent t v ct] leaves. *)
Definition added (t : ComponentType) (v : float) (ct : CircuitType) (g : Globals)
  : Globals :=
  let c := mkComponent (nextId g) t v ct in
  {| componentsData := componentsData g ++ [c];
     seriesCircuit :=
       if CircuitType_eqb ct SERIES then seriesCircuit g ++ [nextId g]
       else seriesCircuit g;
     parallelCircuit :=
       if CircuitType_eqb ct SERIES then parallelCircuit g
       else parallelCircuit g ++ [nextId g];
     undoStack := (componentsData g ++ [c]) :: undoStack g;
     opQueue := logged (added_text (nextId g) t v ct) (opQueue g);
     nextId := Z.succ (nextId g); textBuffer := textBuffer g;
     addType := addType g; addCircuit := addCircuit g;
     statusMessage := statusMessage g |}.

End Effects.

(** The state a successful [RemoveComponent id0] leaves. *)
Definition removed (id0 : Z) (g : Globals) : Globals :=
  {| componentsData := erase_first id0 (componentsData g);
     seriesCircuit := list_remove id0 (seriesCircuit g);
     parallelCircuit := list_remove id0 (parallelCircuit g);
     undoStack := componentsData g :: undoStack g;
     opQueue := logged ("Removed component ID=" ++ ostream_int id0) (opQueue g);
     nextId := nextId g; textBuffer := textBuffer g;
     addType := addType g; addCircuit := addCircuit g;
     statusMessage := statusMessage g |}.

(** *** The aggregate formulas in the words of the spec *)

(** The component an id denotes in a collection: among the components with
    that id, the one that comes first. *)
Definition denoted (l : list Component) (i : Z) : option Component :=
  hd_error (filter (fun c => id c =? i) l).

(** The members of an id list: the component each id denotes, ids that
    denote none left out. *)
Definition members (g : Globals) (l : list Z) : list Component :=
  flat_map (fun i => match denoted (componentsData g) i with
                     | Some c => [c]
                     | None => []
                     end) l.

Definition is_resistor (c : Component) : bool := ComponentType_eqb (type c) RESISTOR.

(** Summation of doubles from 0, left to right. *)
Definition float_sum (l : list float) : float := fold_left PrimFloat.add l 0%float.

Definition cd_sum (l : list cd) : cd := fold_left cd_add l (mkcd 0 0).

(** Sum of [value] over the members that are resistors. *)
Definition series_resistance_spec (g : Globals) (l : list Z) : float :=
  float_sum (map value (filter is_resistor (members g l))).

(** The resistor members with a value different from 0. *)
Definition eligible (g : Globals) (l : list Z) : list Component :=
  filter (fun c => is_resistor c && negb (value c =? 0)%float) (members g l).

(** [1 / sum of 1/value] over the eligible members, 0 when that sum is 0. *)
Definition parallel_resistance_spec (g : Globals) (l : list Z) : float :=
  let s := float_sum (map (fun c => 1 / value c)%float (eligible g l)) in
  if (s =? 0)%float then 0%float else (1 / s)%float.

(** The complex impedances of the members, and the reciprocals of those
    that differ from 0. *)
Definition impedances (g : Globals) (l : list Z) (freqHz : float) : list cd :=
  map (fun c => GetComponentImpedanceComplex (Some c) freqHz) (members g l).

Definition admittances {lib : CxxLib} (g : Globals) (l : list Z) (freqHz : float)
  : list cd :=
  map (complex_div (mkcd 1 0))
      (filter (fun z => cd_neqb z (mkcd 0 0)) (impedances g l freqHz)).

(** ** An instance of the library interface

    Used to run the model on concrete inputs; no theorem about the program
    depends on it.  [stod] is given on the few texts used below, division
    and modulus by the textbook formulas, and every double prints the same. *)
Definition demo_stod (s : string) : option float :=
  if String.eqb s "100" then Some 100%float
  else if String.eqb s "0" then Some 0%float
  else if String.eqb s "-5" then Some (-5)%float
  else if String.eqb s "nan" then Some nan
  else None.

Definition demo_div (a b : cd) : cd :=
  let d := (real b * real b + imag b * imag b)%float in
  mkcd ((real a * real b + imag a * imag b) / d)%float
       ((imag a * real b - real a * imag b) / d)%float.

Definition demo_abs (a : cd) : float :=
  PrimFloat.sqrt (real a * real a + imag a * imag a)%float.

Definition demo_lib : CxxLib :=
  {| ostream_double := fun _ => "<double>"%string;
     stod := demo_stod;
     complex_div := demo_div;
     complex_abs := demo_abs |}.

(** *** Concrete states *)

(** [initial] after one resistor of 100 ohm is added to the series group. *)
Definition one_resistor : Globals :=
  Eval cbv in
    state_after (AddComponent (lib := demo_lib) RESISTOR 100%float SERIES) initial.

(** Two resistors of 100 ohm in the parallel group, three of 10 ohm in the
    series group, and an inductor of 1 H. *)
Definition small_circuit : Globals :=
  Eval cbv in
    state_after
      (run (lib := demo_lib)
         [CallAdd RESISTOR 100%float PARALLEL; CallAdd RESISTOR 100%float PARALLEL;
          CallAdd RESISTOR 10%float SERIES; CallAdd RESISTOR 10%float SERIES;
          CallAdd RESISTOR 10%float SERIES; CallAdd INDUCTOR 1%float SERIES])
      initial.

(** The initial state after "-5" is typed on the "Add" screen. *)
Definition typed_minus_five : Globals :=
  Eval cbv in set_textBuffer (fun _ => "-5"%string) initial.


(** The initial state after "nan" is typed on the "Add" screen. *)
Definition typed_nan : Globals :=
  Eval cbv in set_textBuffer (fun _ => "nan"%string) initial.

(** A state whose operation queue is full: twenty additions. *)
Definition twenty_adds : Globals :=
  Eval cbv in
    state_after
      (run (lib := demo_lib) (repeat (CallAdd RESISTOR 100%float SERIES) 20)) initial.

(** ** Presentation helpers and the other click handlers *)

Module Gfx.

(** raylib's [Color]: four [unsigned char] channels, each in 0..255. *)
Record Color := mkColor { r : Z; g : Z; b : Z; a : Z }.

(** The conversion [(unsigned char)v] of an [int]: reduction modulo 256. *)
Definition to_uchar (v : Z) : Z := v mod 256.

Definition ClampU8 (v : Z) : Z :=
  if v <? 0 then 0 else if 255 <? v then 255 else to_uchar v.

(** The fill colour [DrawButtonEx] computes before it draws: the base colour,
    with the three colour channels raised by 25 through [ClampU8] when the
    button is hovered. *)
Definition DrawButtonEx_fill (hovered : bool) (baseColor : Color) : Color :=
  if hovered then
    mkColor (ClampU8 (r baseColor + 25)) (ClampU8 (g baseColor + 25))
            (ClampU8 (b baseColor + 25)) (a baseColor)
  else baseColor.

(** Every channel is an [unsigned char]. *)
Definition valid (c : Color) : Prop :=
  0 <= r c <= 255 /\ 0 <= g c <= 255 /\ 0 <= b c <= 255 /\ 0 <= a c <= 255.

End Gfx.

(** [buf.pop_back()] on a non-empty [std::string]; the empty string is left
    as it is (the source calls it only when [!buf.empty()]). *)
Fixpoint string_pop_back (s : string) : string :=
  match s with
  | EmptyString => EmptyString
  | String c EmptyString => EmptyString
  | String c rest => String c (string_pop_back rest)
  end.

(** [(char)key]: the low eight bits of the [int]. *)
Definition char_of_key (key : Z) : Ascii.ascii := Ascii.ascii_of_N (Z.to_N (key mod 256)).

(** The [while] loop of [HandleTextInput].  [keys] are the values the
    successive calls of [GetCharPressed] return; the loop ends at the first
    one that is not positive, and an exhausted list stands for an empty
    queue, where [GetCharPressed] returns 0. *)
Fixpoint HandleTextInput_loop (buf : string) (maxLen : Z) (keys : list Z) : string :=
  match keys with
  | [] => buf
  | key :: rest =>
      if 0 <? key then
        HandleTextInput_loop
          (if (32 <=? key) && (Z.of_nat (String.length buf) <? maxLen)
           then (buf ++ String (char_of_key key) EmptyString)%string
           else buf)
          maxLen rest
      else buf
  end.

(** [HandleTextInput(buf, maxLen)]; [backspace] is what
    [IsKeyPressed(KEY_BACKSPACE)] returns. *)
Definition HandleTextInput (buf : string) (maxLen : Z) (keys : list Z)
    (backspace : bool) : string :=
  let buf := HandleTextInput_loop buf maxLen keys in
  if backspace && negb (String.eqb buf EmptyString) then string_pop_back buf else buf.

Section Handlers.

Context {lib : CxxLib}.

(** [std::stoi]; [None] when it throws. *)
Variable stoi : string -> option Z.

Definition StringToIntSafe (s : string) : Z * bool :=
  if String.eqb s EmptyString then (0, false)
  else match stoi s with
       | Some v => (v, true)
       | None => (0, false)
       end.

(** What [DrawRemoveScreen] does in the frame in which the "Remove" button is
    released. *)
Definition DrawRemoveScreen_RemoveReleased : M unit :=
  buf <- gets textBuffer ;;
  let (id0, ok) := StringToIntSafe buf in
  (if ok then
     found <- RemoveComponent id0 ;;
     modify (set_statusMessage
               (fun _ => if found then "Component removed!"%string
                         else "Not found."%string))
   else modify (set_statusMessage (fun _ => "Invalid ID."%string))) ;;
  modify (set_textBuffer (fun _ => EmptyString)).

(** What [DrawMainMenu] does to the modelled globals in the frame in which
    the "Undo Last Operation" button is released. *)
Definition DrawMainMenu_UndoReleased : M unit :=
  modify (set_textBuffer (fun _ => EmptyString)) ;;
  modify (set_statusMessage (fun _ => EmptyString)) ;;
  Undo.

(** What the user interface can do to the modelled globals.  [UiInput]
    stands for everything that writes only the text buffer, the two
    selections and the status message (typing, the selection buttons, the
    "Back" button, entering a screen), and lets them take any value. *)
Inductive UiEvent :=
| UiInput (text : string) (t : ComponentType) (ct : CircuitType) (status : string)
| UiAddReleased
| UiRemoveReleased
| UiUndoReleased.

Definition ui_input (text : string) (t : ComponentType) (ct : CircuitType)
    (status : string) (g : Globals) : Globals :=
  {| componentsData := componentsData g; seriesCircuit := seriesCircuit g;
     parallelCircuit := parallelCircuit g; undoStack := undoStack g;
     opQueue := opQueue g; nextId := nextId g; textBuffer := text;
     addType := t; addCircuit := ct; statusMessage := status |}.

Definition ui_exec (e : UiEvent) : M unit :=
  match e with
  | UiInput text t ct status => modify (ui_input text t ct status)
  | UiAddReleased => DrawAddScreen_AddReleased
  | UiRemoveReleased => DrawRemoveScreen_RemoveReleased
  | UiUndoReleased => DrawMainMenu_UndoReleased
  end.

Fixpoint ui_run (es : list UiEvent) : M unit :=
  match es with
  | [] => ret tt
  | e :: rest => ui_exec e ;; ui_run rest
  end.

End Handlers.

(** *** Vocabulary of the further properties *)

(** Every component of [l] has a value greater than 0. *)
Definition positive_values (l : list Component) : Prop :=
  Forall (fun c => (0 <? value c)%float = true) l.

(** A state is sound when it is consistent and every value in the collection
    and in the snapshots is greater than 0. *)
Definition sound (g : Globals) : Prop :=
  consistent g
  /\ positive_values (componentsData g)
  /\ Forall positive_values (undoStack g).

(** The largest [int]. *)
Definition INT_MAX : Z := 2147483647.

(** No id in the collection or in a snapshot is below [n], nor is [nextId]. *)
Definition ids_from (n : Z) (g : Globals) : Prop :=
  n <= nextId g
  /\ Forall (fun c => n <= id c) (componentsData g)
  /\ Forall (Forall (fun c => n <= id c)) (undoStack g).



(** The number of additions in a sequence of calls. *)
Fixpoint count_adds (cs : list Call) : nat :=
  match cs with
  | [] => O
  | CallAdd _ _ _ :: rest => S (count_adds rest)
  | _ :: rest => count_adds rest
  end.

(** [n], [n + 1], ..., [n + k - 1]. *)
Fixpoint consecutive (n : Z) (k : nat) : list Z :=
  match k with
  | O => []
  | S k' => n :: consecutive (Z.succ n) k'
  end.

(** The last [n] elements of a list. *)
Definition lastn {A} (n : nat) (l : list A) : list A := skipn (List.length l - n) l.

(** [PushSnapshot] called with each text of [descs] in turn. *)
Fixpoint push_all (descs : list string) : M unit :=
  match descs with
  | [] => ret tt
  | d :: rest => PushSnapshot d ;; push_all rest
  end.

(** A [std::stoi] for the few texts used below. *)
Definition demo_stoi (s : string) : option Z :=
  if String.eqb s "1" then Some 1
  else if String.eqb s "7" then Some 7
  else None.

(** [one_resistor] after "1", resp. "7", is typed on the "Remove" screen. *)
Definition typed_one : Globals :=
  Eval cbv in set_textBuffer (fun _ => "1"%string) one_resistor.
Definition typed_seven : Globals :=
  Eval cbv in set_textBuffer (fun _ => "7"%string) one_resistor.

(** The initial state after "100" is typed on the "Add" screen. *)
Definition typed_hundred : Globals :=
  Eval cbv in set_textBuffer (fun _ => "100"%string) initial.

(** * Properties *)

Section LedgerFacts.

Context {lib : CxxLib}.

Ltac run_monad :=
  unfold state_after, result_of, bind, ret, gets, modify in *; cbn [fst snd] in *.

(** ** Lists *)

Lemma find_first_none (id0 : Z) (l : list Component) :
  ~ In id0 (ids l) -> find_first id0 l = None.
Proof.
  induction l as [|c r IH]; cbn; [reflexivity|].
  intros H. destruct (Z.eqb_spec (id c) id0) as [E|E].
  - exfalso. apply H. now left.
  - apply IH. intros Hin. apply H. now right.
Qed.

Lemma find_first_some (id0 : Z) (l : list Component) (c : Component) :
  find_first id0 l = Some c -> In c l /\ id c = id0.
Proof.
  induction l as [|x r IH]; cbn; [discriminate|].
  destruct (Z.eqb_spec (id x) id0) as [E|E].
  - intros [= <-]. split; [now left | exact E].
  - intros H. destruct (IH H) as [Hin Hid]. split; [now right | exact Hid].
Qed.

Lemma list_remove_absent (v : Z) (l : list Z) : ~ In v l -> list_remove v l = l.
Proof.
  induction l as [|x r IH]; cbn; [reflexivity|].
  intros H. destruct (Z.eqb_spec x v) as [E|E].
  - exfalso. apply H. now left.
  - f_equal. apply IH. intros Hin. apply H. now right.
Qed.

Lemma ids_filter_incl (f : Component -> bool) (l : list Component) (i : Z) :
  In i (ids (filter f l)) -> In i (ids l).
Proof.
  unfold ids. rewrite !in_map_iff. intros (c & Hc & Hin).
  apply filter_In in Hin. exists c. tauto.
Qed.

Lemma ids_erase_first_incl (id0 : Z) (l : list Component) (i : Z) :
  In i (ids (erase_first id0 l)) -> In i (ids l).
Proof.
  induction l as [|c r IH]; cbn; [tauto|].
  destruct (id c =? id0); cbn; [tauto|]. intros [H|H]; [now left | right; auto].
Qed.

Lemma below_erase_first (n id0 : Z) (l : list Component) :
  below n l -> below n (erase_first id0 l).
Proof.
  unfold below. induction 1 as [|c r Hc Hr IH]; cbn; [constructor|].
  destruct (id c =? id0); [exact Hr | now constructor].
Qed.

Lemma nodup_erase_first (id0 : Z) (l : list Component) :
  NoDup (ids l) -> NoDup (ids (erase_first id0 l)).
Proof.
  induction l as [|c r IH]; cbn; [auto|].
  intros H. inversion H as [|? ? Hnotin Hr]; subst.
  destruct (id c =? id0); [exact Hr|]. cbn. constructor; [|auto].
  intros Hin. apply Hnotin. eapply ids_erase_first_incl; eauto.
Qed.

(** Removing an id from a projection of a duplicate-free collection is the
    projection of the collection without the component of that id. *)
Lemma list_remove_projection (f : Component -> bool) (id0 : Z) (l : list Component) :
  NoDup (ids l) ->
  list_remove id0 (ids (filter f l)) = ids (filter f (erase_first id0 l)).
Proof.
  induction l as [|c r IH]; cbn; [reflexivity|].
  intros H. inversion H as [|? ? Hnotin Hr]; subst.
  destruct (Z.eqb_spec (id c) id0) as [E|E].
  - subst id0.
    assert (Hrest : list_remove (id c) (ids (filter f r)) = ids (filter f r)).
    { apply list_remove_absent. intros Hin. apply Hnotin.
      eapply ids_filter_incl; eauto. }
    destruct (f c); cbn; [rewrite Z.eqb_refl|]; exact Hrest.
  - cbn. destruct (f c); cbn.
    + destruct (Z.eqb_spec (id c) id0); [contradiction|]. f_equal. auto.
    + auto.
Qed.

Lemma below_weaken (n m : Z) (l : list Component) : n <= m -> below n l -> below m l.
Proof.
  unfold below. intros Hnm H. eapply Forall_impl; [|exact H].
  cbn. intros c Hc. lia.
Qed.

Lemma below_not_in (n : Z) (l : list Component) : below n l -> ~ In n (ids l).
Proof.
  unfold below, ids. intros H Hin. apply in_map_iff in Hin.
  destruct Hin as (c & Hc & Hin). rewrite Forall_forall in H.
  specialize (H c Hin). lia.
Qed.

Lemma ids_app (l1 l2 : list Component) : ids (l1 ++ l2) = ids l1 ++ ids l2.
Proof. apply map_app. Qed.

Lemma nodup_snoc (l : list Z) (x : Z) : NoDup l -> ~ In x l -> NoDup (l ++ [x]).
Proof.
  intros Hl Hx. induction Hl as [|y r Hy Hr IH]; cbn.
  - constructor; [tauto | constructor].
  - constructor.
    + rewrite in_app_iff. cbn. intros [H|[H|[]]]; [tauto|].
      subst. apply Hx. now left.
    + apply IH. intros H. apply Hx. now right.
Qed.

(** In a duplicate-free collection the two projections partition the ids. *)
Lemma projections_partition (l : list Component) :
  NoDup (ids l) ->
  (forall i, In i (series_of l) \/ In i (parallel_of l) <-> In i (ids l))
  /\ (forall i, ~ (In i (series_of l) /\ In i (parallel_of l))).
Proof.
  unfold series_of, parallel_of.
  induction l as [|c r IH]; cbn; [intros _; split; intros i; tauto|].
  intros H. inversion H as [|? ? Hnotin Hr]; subst.
  destruct (IH Hr) as [IHu IHd]. split; intros i.
  - specialize (IHu i). destruct (in_series c); cbn; tauto.
  - specialize (IHd i). intros [Hs Hp].
    destruct (in_series c); cbn in Hs, Hp.
    + destruct Hs as [Hs|Hs]; [|tauto]. subst i. apply Hnotin.
      eapply ids_filter_incl; eauto.
    + destruct Hp as [Hp|Hp]; [|tauto]. subst i. apply Hnotin.
      eapply ids_filter_incl; eauto.
Qed.

(** ** What each ledger function does to the globals *)

Lemma PushSnapshot_run (desc : string) (g : Globals) :
  PushSnapshot desc g
  = (tt, set_opQueue (logged desc) (set_undoStack (cons (componentsData g)) g)).
Proof.
  unfold PushSnapshot, logged, set_opQueue, set_undoStack, push_back.
  run_monad. destruct (20 <? _)%nat; reflexivity.
Qed.

Lemma AddComponent_run (t : ComponentType) (v : float) (ct : CircuitType)
    (g : Globals) :
  AddComponent t v ct g = (tt, added t v ct g).
Proof.
  unfold AddComponent. unfold bind at 1 2 3 4. unfold gets at 1.
  cbn [fst snd]. fold (added_text (nextId g) t v ct).
  unfold bind, modify. destruct ct; cbn [CircuitType_eqb];
    rewrite PushSnapshot_run; reflexivity.
Qed.

Lemma RemoveComponent_found (id0 : Z) (g : Globals) (c : Component) :
  find_first id0 (componentsData g) = Some c ->
  RemoveComponent id0 g = (true, removed id0 g).
Proof.
  intros H. unfold RemoveComponent, bind at 1, gets. cbn [fst snd]. rewrite H.
  unfold bind, modify. rewrite PushSnapshot_run. reflexivity.
Qed.

Lemma RemoveComponent_missing (id0 : Z) (g : Globals) :
  find_first id0 (componentsData g) = None ->
  RemoveComponent id0 g = (false, g).
Proof.
  intros H. unfold RemoveComponent, bind at 1, gets. cbn [fst snd]. rewrite H.
  reflexivity.
Qed.

Lemma Undo_rebuild_run (l : list Component) (g : Globals) :
  Undo_rebuild l g
  = (tt, set_parallelCircuit (fun p => p ++ parallel_of l)
           (set_seriesCircuit (fun s => s ++ series_of l) g)).
Proof.
  revert g. induction l as [|c r IH]; intros g; cbn [Undo_rebuild].
  - unfold ret, set_parallelCircuit, set_seriesCircuit. cbn.
    rewrite !app_nil_r. destruct g; reflexivity.
  - unfold bind. unfold series_of, parallel_of, in_series in *.
    cbn [filter]. destruct (CircuitType_eqb (circuitType c) SERIES);
      unfold modify; rewrite IH; cbn [negb ids map];
      unfold set_parallelCircuit, set_seriesCircuit, push_back; cbn;
      rewrite <- ?app_assoc; reflexivity.
Qed.

Lemma Undo_empty (g : Globals) : undoStack g = [] -> Undo g = (tt, g).
Proof.
  intros H. unfold Undo, bind at 1, gets. cbn [fst snd]. rewrite H. reflexivity.
Qed.

Lemma Undo_pop (g : Globals) (top : list Component) (rest : list (list Component)) :
  undoStack g = top :: rest -> Undo g = (tt, restored top rest g).
Proof.
  intros H. unfold Undo, bind at 1, gets at 1. cbn [fst snd]. rewrite H.
  unfold bind, modify, gets. rewrite Undo_rebuild_run.
  unfold restored, set_parallelCircuit, set_seriesCircuit, set_undoStack,
    set_componentsData. cbn. rewrite H. reflexivity.
Qed.

Lemma exec_state (c : Call) (g : Globals) :
  state_after (exec c) g
  = match c with
    | CallAdd t v ct => added t v ct g
    | CallRemove i =>
        match find_first i (componentsData g) with
        | Some _ => removed i g
        | None => g
        end
    | CallUndo =>
        match undoStack g with
        | [] => g
        | top :: rest => restored top rest g
        end
    end.
Proof.
  unfold state_after. destruct c as [t v ct|i|]; cbn [exec].
  - now rewrite AddComponent_run.
  - unfold bind. destruct (find_first i (componentsData g)) as [c|] eqn:E.
    + now rewrite (RemoveComponent_found _ _ _ E).
    + now rewrite (RemoveComponent_missing _ _ E).
  - destruct (undoStack g) as [|top rest] eqn:E.
    + now rewrite (Undo_empty _ E).
    + now rewrite (Undo_pop _ _ _ E).
Qed.

Lemma run_cons (c : Call) (r : list Call) (g : Globals) :
  state_after (run (c :: r)) g = state_after (run r) (state_after (exec c) g).
Proof.
  unfold state_after. cbn [run]. unfold bind. now destruct (exec c g).
Qed.

(** ** Consistency is kept by every ledger function *)

Lemma consistent_initial : consistent initial.
Proof. split; cbn; try reflexivity; constructor. Qed.

Lemma series_of_snoc (l : list Component) (c : Component) :
  series_of (l ++ [c]) = if in_series c then series_of l ++ [id c] else series_of l.
Proof.
  unfold series_of. rewrite filter_app, ids_app. cbn.
  destruct (in_series c); cbn; [reflexivity | apply app_nil_r].
Qed.

Lemma parallel_of_snoc (l : list Component) (c : Component) :
  parallel_of (l ++ [c])
  = if in_series c then parallel_of l else parallel_of l ++ [id c].
Proof.
  unfold parallel_of. rewrite filter_app, ids_app. cbn.
  destruct (in_series c); cbn; [apply app_nil_r | reflexivity].
Qed.

Lemma stack_sound_weaken (n m : Z) (st : list (list Component)) :
  n <= m ->
  Forall (fun s => NoDup (ids s) /\ below n s) st ->
  Forall (fun s => NoDup (ids s) /\ below m s) st.
Proof.
  intros Hnm H. eapply Forall_impl; [|exact H]. cbn.
  intros s [Hs Hb]. split; [exact Hs | eapply below_weaken; eauto].
Qed.

Lemma consistent_added (t : ComponentType) (v : float) (ct : CircuitType)
    (g : Globals) :
  consistent g -> consistent (added t v ct g).
Proof.
  intros [Hb Hn Hs Hp Hst].
  assert (Hb' : below (Z.succ (nextId g))
                  (componentsData g ++ [mkComponent (nextId g) t v ct])).
  { unfold below. apply Forall_app. split.
    - apply (below_weaken (nextId g)); [lia | exact Hb].
    - constructor; [cbn; lia | constructor]. }
  assert (Hn' : NoDup (ids (componentsData g ++ [mkComponent (nextId g) t v ct]))).
  { rewrite ids_app. cbn. apply nodup_snoc; [exact Hn | now apply below_not_in]. }
  split; cbn [added componentsData seriesCircuit parallelCircuit undoStack nextId].
  - exact Hb'.
  - exact Hn'.
  - rewrite series_of_snoc. unfold in_series. cbn. rewrite Hs.
    destruct (CircuitType_eqb ct SERIES); reflexivity.
  - rewrite parallel_of_snoc. unfold in_series. cbn. rewrite Hp.
    destruct (CircuitType_eqb ct SERIES); reflexivity.
  - constructor; [split; assumption|].
    apply (stack_sound_weaken (nextId g)); [lia | exact Hst].
Qed.

Lemma consistent_removed (id0 : Z) (g : Globals) :
  consistent g -> consistent (removed id0 g).
Proof.
  intros [Hb Hn Hs Hp Hst].
  split; cbn [removed componentsData seriesCircuit parallelCircuit undoStack nextId].
  - now apply below_erase_first.
  - now apply nodup_erase_first.
  - rewrite Hs. unfold series_of. now apply list_remove_projection.
  - rewrite Hp. unfold parallel_of. now apply list_remove_projection.
  - constructor; [split; assumption | exact Hst].
Qed.

Lemma consistent_restored (top : list Component) (rest : list (list Component))
    (g : Globals) :
  consistent g -> undoStack g = top :: rest -> consistent (restored top rest g).
Proof.
  intros [Hb Hn Hs Hp Hst] E. rewrite E in Hst.
  inversion Hst as [|? ? [Htop Hbt] Hrest]; subst.
  split; cbn; auto.
Qed.

Lemma consistent_exec (c : Call) (g : Globals) :
  consistent g -> consistent (state_after (exec c) g).
Proof.
  intros H. rewrite exec_state. destruct c as [t v ct|i|].
  - now apply consistent_added.
  - destruct (find_first i (componentsData g)); [now apply consistent_removed | exact H].
  - destruct (undoStack g) as [|top rest] eqn:E;
      [exact H | now apply consistent_restored].
Qed.

Lemma consistent_run (cs : list Call) (g : Globals) :
  consistent g -> consistent (state_after (run cs) g).
Proof.
  revert g. induction cs as [|c r IH]; intros g H; [exact H|].
  rewrite run_cons. apply IH. now apply consistent_exec.
Qed.

Lemma consistent_membership (g : Globals) : consistent g -> membership_invariant g.
Proof.
  intros [Hb Hn Hs Hp Hst]. unfold membership_invariant. rewrite Hs, Hp.
  now apply projections_partition.
Qed.

(** ** Undo after a mutation *)

Lemma snoc_neq {A} (l : list A) (x : A) : l ++ [x] <> l.
Proof.
  intros H. apply (f_equal (@List.length A)) in H.
  rewrite length_app in H. cbn in H. lia.
Qed.

Lemma after_seq {A} (m : M A) (k : M unit) (g : Globals) :
  state_after (m ;; k) g = state_after k (state_after m g).
Proof. unfold state_after, bind. now destruct (m g). Qed.

(** A successful removal followed by [Undo] gives back the collection, and in
    a consistent state the two group lists as well. *)
Lemma Undo_after_RemoveComponent (id0 : Z) (g : Globals) (c : Component) :
  consistent g ->
  find_first id0 (componentsData g) = Some c ->
  let g' := state_after (RemoveComponent id0 ;; Undo) g in
  componentsData g' = componentsData g
  /\ seriesCircuit g' = seriesCircuit g
  /\ parallelCircuit g' = parallelCircuit g.
Proof.
  intros [Hb Hn Hs Hp Hst] Hfind.
  assert (E : state_after (RemoveComponent id0 ;; Undo) g
              = restored (componentsData g) (undoStack g) (removed id0 g)).
  { rewrite after_seq. unfold state_after.
    rewrite (RemoveComponent_found _ _ _ Hfind). cbn [snd].
    now rewrite (Undo_pop (removed id0 g) _ _ eq_refl). }
  cbn zeta. rewrite E. cbn [restored componentsData seriesCircuit parallelCircuit].
  split; [reflexivity | split; symmetry; assumption].
Qed.

(** C1: the snapshot [AddComponent] pushes is taken after the new component is
    appended, so [Undo] right after an addition restores the collection with
    the new component still in it: the collection is not the one from before
    the addition, in any state and for any component. *)
Theorem Undo_after_AddComponent_keeps_component
    (t : ComponentType) (v : float) (ct : CircuitType) (g : Globals) :
  let g' := state_after (AddComponent t v ct ;; Undo) g in
  componentsData g' = componentsData g ++ [mkComponent (nextId g) t v ct]
  /\ componentsData g' <> componentsData g
  /\ undoStack g' = undoStack g.
Proof.
  assert (E : state_after (AddComponent t v ct ;; Undo) g
              = restored (componentsData g ++ [mkComponent (nextId g) t v ct])
                  (undoStack g) (added t v ct g)).
  { rewrite after_seq. unfold state_after. rewrite AddComponent_run. cbn [snd].
    now rewrite (Undo_pop (added t v ct g) _ _ eq_refl). }
  cbn zeta. rewrite E. cbn [restored componentsData undoStack].
  split; [reflexivity | split; [apply snoc_neq | reflexivity]].
Qed.

(** ** Validation of the value *)

Lemma leb_zero_not_pos (v : float) : (v <=? 0)%float = true -> (0 <? v)%float = false.
Proof.
  rewrite leb_spec, ltb_spec. change (Prim2SF 0) with (S754_zero false).
  destruct (Prim2SF v) as [s|s| |s m e]; try destruct s; cbn; congruence.
Qed.

(** [AddComponent] itself adds whatever value it is given. *)
Lemma AddComponent_any_value (t : ComponentType) (v : float) (ct : CircuitType)
    (g : Globals) :
  componentsData (state_after (AddComponent t v ct) g)
  = componentsData g ++ [mkComponent (nextId g) t v ct].
Proof. unfold state_after. now rewrite AddComponent_run. Qed.

(** C2 (as amended): the handler of the "Add" button, the only caller of
    [AddComponent], calls it only when the text parses and the value passes
    the test [v > 0.0].  In every other case (the text does not parse, or the
    value is <= 0 or NaN) the handler only sets the status message:
    collection, group lists, undo stack, operation queue and id counter are
    unchanged. *)
Theorem DrawAddScreen_rejects_nonpositive (g : Globals) (v : float) (ok : bool) :
  StringToDoubleSafe (textBuffer g) = (v, ok) ->
  ok && (0 <? v)%float = false ->
  DrawAddScreen_AddReleased g
  = (tt, set_statusMessage
           (fun _ => "Invalid value. Enter a positive number."%string) g)
  /\ ledger_of (state_after DrawAddScreen_AddReleased g) = ledger_of g.
Proof.
  intros Hparse Hguard.
  assert (Hrun : DrawAddScreen_AddReleased g
                 = (tt, set_statusMessage
                          (fun _ => "Invalid value. Enter a positive number."%string) g)).
  { unfold DrawAddScreen_AddReleased, bind at 1, gets at 1. cbn [fst snd].
    rewrite Hparse, Hguard. reflexivity. }
  split; [exact Hrun|]. unfold state_after. rewrite Hrun. reflexivity.
Qed.

(** The test [v > 0.0] fails for every value that is <= 0. *)
Lemma nonpositive_fails_guard (v : float) (ok : bool) :
  (v <=? 0)%float = true -> ok && (0 <? v)%float = false.
Proof. intros H. rewrite (leb_zero_not_pos _ H). apply andb_false_r. Qed.

(** ** The membership invariant *)

(** C3: after every sequence of [AddComponent], [RemoveComponent] and [Undo]
    calls from the initial state, the ids in the series list and the parallel
    list together are exactly the ids of the component collection, and no id
    is in both lists. *)
Theorem membership_invariant_reachable (cs : list Call) :
  membership_invariant (state_after (run cs) initial).
Proof.
  apply consistent_membership, consistent_run, consistent_initial.
Qed.

(** ** Ids *)

Lemma nextId_exec (c : Call) (g : Globals) :
  nextId (state_after (exec c) g)
  = match c with CallAdd _ _ _ => Z.succ (nextId g) | _ => nextId g end.
Proof.
  rewrite exec_state. destruct c as [t v ct|i|]; [reflexivity | |].
  - now destruct (find_first i (componentsData g)).
  - now destruct (undoStack g).
Qed.

Lemma nextId_run_mono (cs : list Call) (g : Globals) :
  nextId g <= nextId (state_after (run cs) g).
Proof.
  revert g. induction cs as [|c r IH]; intros g; [cbn; lia|].
  rewrite run_cons. specialize (IH (state_after (exec c) g)).
  rewrite nextId_exec in IH. destruct c; lia.
Qed.

Lemma assigned_by_add (t : ComponentType) (v : float) (ct : CircuitType)
    (g : Globals) :
  map id (appended g (state_after (exec (CallAdd t v ct)) g)) = [nextId g].
Proof.
  rewrite exec_state. unfold appended. cbn [added componentsData].
  rewrite skipn_app, skipn_all, Nat.sub_diag. reflexivity.
Qed.

(** The ids a sequence of calls gives out are consecutive from [nextId]. *)
Lemma assigned_ids_run (cs : list Call) (g : Globals) :
  assigned_ids cs g = consecutive (nextId g) (count_adds cs)
  /\ nextId (state_after (run cs) g) = nextId g + Z.of_nat (count_adds cs).
Proof.
  revert g. induction cs as [|c rest IH]; intros g; [cbn; split; [reflexivity | lia]|].
  destruct (IH (state_after (exec c) g)) as [Hids Hnext].
  rewrite run_cons, Hnext. cbn [assigned_ids]. cbn zeta. rewrite Hids.
  rewrite nextId_exec.
  destruct c as [t v ct|i|]; cbn [count_adds consecutive app].
  - rewrite assigned_by_add. split; [reflexivity | lia].
  - split; [reflexivity | lia].
  - split; [reflexivity | lia].
Qed.

Lemma in_consecutive (a : Z) (n : nat) (i : Z) :
  In i (consecutive a n) <-> a <= i < a + Z.of_nat n.
Proof.
  revert a. induction n as [|n IH]; intros a; cbn [consecutive In]; [lia|].
  rewrite IH. lia.
Qed.

Lemma consecutive_sorted (a : Z) (n : nat) : StronglySorted Z.lt (consecutive a n).
Proof.
  revert a. induction n as [|n IH]; intros a; cbn; constructor; [apply IH|].
  apply Forall_forall. intros i Hi. apply in_consecutive in Hi. lia.
Qed.

Lemma consecutive_length (a : Z) (n : nat) : List.length (consecutive a n) = n.
Proof. revert a. induction n as [|n IH]; intros a; cbn; [reflexivity | now rewrite IH]. Qed.

Lemma sorted_nodup (l : list Z) : StronglySorted Z.lt l -> NoDup l.
Proof.
  induction 1 as [|x r Hr IH Hx]; constructor; [|exact IH].
  intros Hin. rewrite Forall_forall in Hx. specialize (Hx x Hin). lia.
Qed.

Lemma run_app (cs1 cs2 : list Call) (g : Globals) :
  state_after (run (cs1 ++ cs2)) g = state_after (run cs2) (state_after (run cs1) g).
Proof.
  revert g. induction cs1 as [|c rest IH]; intros g; [reflexivity|].
  cbn [app]. rewrite !run_cons. apply IH.
Qed.

Lemma Forall_erase_first (P : Component -> Prop) (i : Z) (l : list Component) :
  Forall P l -> Forall P (erase_first i l).
Proof.
  induction 1 as [|c rest Hc Hrest IH]; cbn; [constructor|].
  destruct (id c =? i); [exact Hrest | now constructor].
Qed.

Lemma ids_from_exec (n : Z) (c : Call) (g : Globals) :
  ids_from n g -> ids_from n (state_after (exec c) g).
Proof.
  intros (Hn & Hc & Hs). rewrite exec_state. destruct c as [t v ct|i|].
  - assert (Hc' : Forall (fun c => n <= id c)
                    (componentsData g ++ [mkComponent (nextId g) t v ct])).
    { apply Forall_app. split; [exact Hc | constructor; [exact Hn | constructor]]. }
    split; [cbn; lia|]. split; [exact Hc'|]. cbn. now constructor.
  - destruct (find_first i (componentsData g)); [|now split].
    split; [exact Hn|]. split; cbn; [now apply Forall_erase_first | now constructor].
  - destruct (undoStack g) as [|top rest] eqn:E; [split; [exact Hn | split; [exact Hc | now rewrite E]]|].
    inversion Hs as [|? ? Htop Hrest]; subst. split; [exact Hn|]. split; assumption.
Qed.

Lemma ids_from_run (n : Z) (cs : list Call) (g : Globals) :
  ids_from n g -> ids_from n (state_after (run cs) g).
Proof.
  revert g. induction cs as [|c rest IH]; intros g H; [exact H|].
  rewrite run_cons. apply IH. now apply ids_from_exec.
Qed.

(** C4: in every sequence of ledger calls from the initial state in which
    [nextId] does not overflow, the ids stored in the components the
    additions append are strictly increasing, hence pairwise distinct, one
    per addition; every id present in the collection or in a snapshot is one
    of them, no two components of the collection share an id, and all of
    them are below [nextId], the id the next addition stores; [nextId] never
    decreases along the sequence, and [RemoveComponent] and [Undo] leave it
    as it is in every state. *)
Theorem assigned_ids_increasing (cs : list Call) :
  Z.of_nat (count_adds cs) < INT_MAX ->
  let g := state_after (run cs) initial in
  let given := assigned_ids cs initial in
  StronglySorted Z.lt given
  /\ NoDup given
  /\ List.length given = count_adds cs
  /\ NoDup (ids (componentsData g))
  /\ (forall i, In i (ids (componentsData g)) -> In i given)
  /\ Forall (fun s => forall i, In i (ids s) -> In i given) (undoStack g)
  /\ Forall (fun i => i < nextId g) given
  /\ nextId g <= INT_MAX
  /\ (forall cs1 cs2, cs = cs1 ++ cs2 ->
                      nextId (state_after (run cs1) initial) <= nextId g)
  /\ (forall g0 i, nextId (state_after (RemoveComponent i) g0) = nextId g0)
  /\ (forall g0, nextId (state_after Undo g0) = nextId g0).
Proof.
  intros Hbound. cbn zeta.
  destruct (assigned_ids_run cs initial) as [Hgiven Hnext].
  change (nextId initial) with 1 in Hgiven, Hnext. rewrite Hgiven.
  set (g := state_after (run cs) initial) in *.
  destruct (consistent_run cs initial consistent_initial) as [Hb Hn _ _ Hst].
  fold g in Hb, Hn, Hst.
  assert (Hfrom : ids_from 1 g).
  { apply ids_from_run. split; [cbn; lia | split; constructor]. }
  destruct Hfrom as (_ & Hlow & Hslow).
  assert (Hin : forall s, below (nextId g) s -> Forall (fun c => 1 <= id c) s ->
                          forall i, In i (ids s) -> In i (consecutive 1 (count_adds cs))).
  { intros s Hbs Hls i Hi. unfold ids in Hi. apply in_map_iff in Hi.
    destruct Hi as (c & <- & Hc). apply in_consecutive.
    unfold below in Hbs. rewrite Forall_forall in Hbs, Hls.
    specialize (Hbs c Hc). specialize (Hls c Hc). lia. }
  split; [apply consecutive_sorted|].
  split; [apply sorted_nodup, consecutive_sorted|].
  split; [apply consecutive_length|].
  split; [exact Hn|].
  split; [now apply Hin|].
  split.
  { rewrite Forall_forall in Hst, Hslow |- *. intros s Hs.
    apply Hin; [apply (Hst s Hs) | apply (Hslow s Hs)]. }
  split; [apply Forall_forall; intros i Hi; apply in_consecutive in Hi; lia|].
  split; [unfold INT_MAX in *; lia|].
  split.
  { intros cs1 cs2 ->. unfold g. rewrite run_app. apply nextId_run_mono. }
  split.
  - intros g0 i. generalize (nextId_exec (CallRemove i) g0).
    unfold state_after. cbn [exec]. unfold bind.
    now destruct (RemoveComponent i g0).
  - intros g0. exact (nextId_exec CallUndo g0).
Qed.

(** ** Failing calls *)

(** C5: when no component of the collection has the id, [RemoveComponent]
    returns false and every global is as before: nothing is pushed on the
    undo stack and nothing is logged. *)
Theorem RemoveComponent_absent_noop (id0 : Z) (g : Globals) :
  ~ In id0 (ids (componentsData g)) ->
  RemoveComponent id0 g = (false, g).
Proof.
  intros H. apply RemoveComponent_missing, find_first_none, H.
Qed.

(** C6 (as amended): [Undo] returns nothing.  With an empty undo stack it
    leaves every global as it is.  With a non-empty stack it pops the top
    snapshot, makes it the collection and refills the two group lists from
    it; the operation queue and [nextId] are unchanged in both cases. *)
Theorem Undo_effect (g : Globals) :
  (undoStack g = [] -> Undo g = (tt, g))
  /\ (forall top rest, undoStack g = top :: rest ->
                       Undo g = (tt, restored top rest g))
  /\ opQueue (state_after Undo g) = opQueue g
  /\ nextId (state_after Undo g) = nextId g.
Proof.
  split; [apply Undo_empty|]. split; [intros top rest; apply Undo_pop|].
  unfold state_after. destruct (undoStack g) as [|top rest] eqn:E.
  - rewrite (Undo_empty _ E). split; reflexivity.
  - rewrite (Undo_pop _ _ _ E). split; reflexivity.
Qed.

(** ** The operation queue *)

Lemma logged_length (desc : string) (q : list Operation) :
  (List.length q <= 20 -> List.length (logged desc q) <= 20)%nat.
Proof.
  intros H. unfold logged. destruct (Nat.ltb_spec 20 (List.length (q ++ [mkOperation desc]))) as [L|L].
  - rewrite length_app in L. cbn in L.
    destruct q as [|o r]; cbn in *; [lia|]. rewrite length_app. cbn. lia.
  - exact L.
Qed.

(** In every reachable state the operation queue has at most 20 entries. *)
Lemma opQueue_bounded (cs : list Call) :
  (List.length (opQueue (state_after (run cs) initial)) <= 20)%nat.
Proof.
  assert (H : forall g, (List.length (opQueue g) <= 20)%nat ->
                        (List.length (opQueue (state_after (run cs) g)) <= 20)%nat).
  { induction cs as [|c r IH]; intros g Hg; [exact Hg|].
    rewrite run_cons. apply IH. rewrite exec_state.
    destruct c as [t v ct|i|].
    - cbn. now apply logged_length.
    - destruct (find_first i (componentsData g)); [|exact Hg].
      cbn. now apply logged_length.
    - now destruct (undoStack g). }
  apply H. cbn. lia.
Qed.

(** C9: [PushSnapshot] keeps the operation queue within 20 entries: called
    with at most 20 entries queued (as in every reachable state, by
    [opQueue_bounded]), it leaves at most 20; below 20 the new entry is
    appended, and at 20 the entry at the front, the oldest, is dropped and
    the others keep their order before the new one. *)
Theorem PushSnapshot_log_bounded (desc : string) (g : Globals) :
  (List.length (opQueue g) <= 20)%nat ->
  let q' := opQueue (state_after (PushSnapshot desc) g) in
  (List.length q' <= 20)%nat
  /\ ((List.length (opQueue g) < 20)%nat -> q' = opQueue g ++ [mkOperation desc])
  /\ (List.length (opQueue g) = 20%nat ->
      exists oldest rest,
        opQueue g = oldest :: rest /\ q' = rest ++ [mkOperation desc]).
Proof.
  intros H. cbn zeta. unfold state_after. rewrite PushSnapshot_run. cbn.
  split; [now apply logged_length|]. unfold logged.
  rewrite length_app. cbn [List.length]. split.
  - intros L. destruct (Nat.ltb_spec 20 (List.length (opQueue g) + 1)); [lia | reflexivity].
  - intros E. destruct (Nat.ltb_spec 20 (List.length (opQueue g) + 1)); [|lia].
    destruct (opQueue g) as [|o r]; [discriminate|]. exists o, r. split; reflexivity.
Qed.

(** ** The aggregate queries *)

(** The scan of [FindComponent] returns the component the id denotes. *)
Lemma find_first_denoted (i : Z) (l : list Component) :
  find_first i l = denoted l i.
Proof.
  unfold denoted. induction l as [|c rest IH]; cbn; [reflexivity|].
  destruct (id c =? i); [reflexivity | exact IH].
Qed.

Lemma members_cons (g : Globals) (i : Z) (l : list Z) :
  members g (i :: l)
  = match find_first i (componentsData g) with
    | Some c => [c]
    | None => []
    end ++ members g l.
Proof. unfold members. cbn [flat_map]. now rewrite find_first_denoted. Qed.

Lemma members_app (g : Globals) (l1 l2 : list Z) :
  members g (l1 ++ l2) = members g l1 ++ members g l2.
Proof. apply flat_map_app. Qed.

Lemma members_skip (g : Globals) (l1 l2 : list Z) (i : Z) :
  find_first i (componentsData g) = None ->
  members g (l1 ++ i :: l2) = members g (l1 ++ l2).
Proof.
  intros H. rewrite !members_app. f_equal. now rewrite members_cons, H.
Qed.

Lemma CalcSeries_loop_run (l : list Z) (sum : float) (g : Globals) :
  CalcSeries_loop l sum g
  = (fold_left PrimFloat.add (map value (filter is_resistor (members g l))) sum, g).
Proof.
  revert sum. induction l as [|i r IH]; intros sum; [reflexivity|].
  cbn [CalcSeries_loop]. unfold FindComponent, bind, gets, ret. cbn [fst snd].
  rewrite members_cons.
  destruct (find_first i (componentsData g)) as [c|]; [|apply IH].
  cbn [app filter]. unfold is_resistor at 1.
  destruct (ComponentType_eqb (type c) RESISTOR); rewrite IH; reflexivity.
Qed.

Lemma CalcParallel_loop_run (l : list Z) (inv : float) (g : Globals) :
  CalcParallel_loop l inv g
  = (fold_left PrimFloat.add (map (fun c => 1 / value c)%float (eligible g l)) inv, g).
Proof.
  revert inv. induction l as [|i r IH]; intros inv; [reflexivity|].
  cbn [CalcParallel_loop]. unfold FindComponent, bind, gets, ret. cbn [fst snd].
  unfold eligible. rewrite members_cons. fold (eligible g r).
  destruct (find_first i (componentsData g)) as [c|]; [|apply IH].
  cbn [app filter]. unfold is_resistor at 1.
  destruct (ComponentType_eqb (type c) RESISTOR && negb (value c =? 0)%float);
    rewrite IH; reflexivity.
Qed.

Lemma CalcSeriesImpedance_loop_run (l : list Z) (freqHz : float) (sum : cd)
    (g : Globals) :
  CalcSeriesImpedance_loop l freqHz sum g
  = (fold_left cd_add (impedances g l freqHz) sum, g).
Proof.
  revert sum. induction l as [|i r IH]; intros sum; [reflexivity|].
  cbn [CalcSeriesImpedance_loop]. unfold FindComponent, bind, gets, ret.
  cbn [fst snd]. unfold impedances. rewrite members_cons.
  fold (impedances g r freqHz).
  destruct (find_first i (componentsData g)) as [c|]; [|apply IH].
  rewrite IH. reflexivity.
Qed.

Lemma CalcParallelImpedance_loop_run (l : list Z) (freqHz : float) (inv : cd)
    (g : Globals) :
  CalcParallelImpedance_loop l freqHz inv g
  = (fold_left cd_add (admittances g l freqHz) inv, g).
Proof.
  revert inv. induction l as [|i r IH]; intros inv; [reflexivity|].
  cbn [CalcParallelImpedance_loop]. unfold FindComponent, bind, gets, ret.
  cbn [fst snd]. unfold admittances, impedances. rewrite members_cons.
  fold (impedances g r freqHz). fold (admittances g r freqHz).
  destruct (find_first i (componentsData g)) as [c|]; [|apply IH].
  cbn [app map filter].
  destruct (cd_neqb (GetComponentImpedanceComplex (Some c) freqHz) (mkcd 0 0));
    rewrite IH; reflexivity.
Qed.

Lemma CalcSeries_run (l : list Z) (g : Globals) :
  CalcSeries l g = (series_resistance_spec g l, g).
Proof. apply CalcSeries_loop_run. Qed.

Lemma CalcParallel_run (l : list Z) (g : Globals) :
  CalcParallel l g = (parallel_resistance_spec g l, g).
Proof.
  unfold CalcParallel, bind. rewrite CalcParallel_loop_run.
  unfold parallel_resistance_spec, float_sum, ret. cbn zeta.
  destruct (_ =? 0)%float; reflexivity.
Qed.

(** The series magnitude is the modulus of the sum of the impedances. *)
Lemma CalcSeriesImpedance_run (l : list Z) (freqHz : float) (g : Globals) :
  CalcSeriesImpedance l freqHz g = (complex_abs (cd_sum (impedances g l freqHz)), g).
Proof.
  unfold CalcSeriesImpedance, bind. rewrite CalcSeriesImpedance_loop_run.
  reflexivity.
Qed.

(** The parallel magnitude is 0 when the reciprocals sum to 0, and else the
    modulus of the reciprocal of their sum. *)
Lemma CalcParallelImpedance_run (l : list Z) (freqHz : float) (g : Globals) :
  CalcParallelImpedance l freqHz g
  = (let inv := cd_sum (admittances g l freqHz) in
     if cd_eqb inv (mkcd 0 0) then 0%float
     else complex_abs (complex_div (mkcd 1 0) inv), g).
Proof.
  unfold CalcParallelImpedance, bind. rewrite CalcParallelImpedance_loop_run.
  unfold cd_sum, ret. cbn zeta. destruct (cd_eqb _ _); reflexivity.
Qed.

(** The impedance of one component, by kind. *)
Lemma GetComponentImpedanceComplex_kinds (c : Component) (freqHz : float) :
  let omega := (2 * M_PI * freqHz)%float in
  GetComponentImpedanceComplex (Some c) freqHz
  = match type c with
    | RESISTOR => mkcd (value c) 0
    | INDUCTOR => cd_scale (cd_scale J omega) (value c)
    | CAPACITOR =>
        if (value c =? 0)%float then mkcd 1e10 0
        else cd_div_scalar (cd_neg J) (omega * value c)%float
    end.
Proof. unfold GetComponentImpedanceComplex. destruct (type c); reflexivity. Qed.

(** C7: [CalcSeries] returns the sum of [value] over the members of the id
    list that are resistors, a member being the first component of the
    collection with an id of the list; it is 0 for the empty list.
    [CalcParallel] returns 1 over the sum of [1 / value] over the resistor
    members with a value different from 0, and 0 when that sum is 0, in
    particular when no member is eligible. *)
Theorem resistance_formulas (g : Globals) (l : list Z) :
  result_of (CalcSeries l) g = series_resistance_spec g l
  /\ result_of (CalcSeries []) g = 0%float
  /\ result_of (CalcParallel l) g = parallel_resistance_spec g l
  /\ result_of (CalcParallel []) g = 0%float
  /\ (eligible g l = [] -> result_of (CalcParallel l) g = 0%float)
  /\ ((float_sum (map (fun c => 1 / value c)%float (eligible g l)) =? 0)%float = true ->
      result_of (CalcParallel l) g = 0%float).
Proof.
  unfold result_of. rewrite CalcSeries_run, CalcParallel_run. cbn [fst].
  repeat split.
  - intros H. unfold parallel_resistance_spec. rewrite H. reflexivity.
  - intros H. unfold parallel_resistance_spec. cbn zeta. rewrite H. reflexivity.
Qed.

(** ** Magnitude of the impedance *)





(** C10: each of the four aggregate queries leaves every global as it is,
    whatever the id list, and an id of the list that is the id of no
    component of the collection does not change the result: the result is
    that for the list without it. *)
Theorem queries_read_only (g : Globals) (l : list Z) (freqHz : float) :
  (state_after (CalcSeries l) g = g
   /\ state_after (CalcParallel l) g = g
   /\ state_after (CalcSeriesImpedance l freqHz) g = g
   /\ state_after (CalcParallelImpedance l freqHz) g = g)
  /\ (forall l1 l2 i,
        l = l1 ++ i :: l2 ->
        ~ In i (ids (componentsData g)) ->
        result_of (CalcSeries l) g = result_of (CalcSeries (l1 ++ l2)) g
        /\ result_of (CalcParallel l) g = result_of (CalcParallel (l1 ++ l2)) g
        /\ result_of (CalcSeriesImpedance l freqHz) g
           = result_of (CalcSeriesImpedance (l1 ++ l2) freqHz) g
        /\ result_of (CalcParallelImpedance l freqHz) g
           = result_of (CalcParallelImpedance (l1 ++ l2) freqHz) g).
Proof.
  split.
  - unfold state_after.
    rewrite CalcSeries_run, CalcParallel_run, CalcSeriesImpedance_run,
      CalcParallelImpedance_run. repeat split.
  - intros l1 l2 i -> Habsent. apply find_first_none in Habsent.
    unfold result_of.
    rewrite !CalcSeries_run, !CalcParallel_run, !CalcSeriesImpedance_run,
      !CalcParallelImpedance_run. cbn [fst].
    unfold series_resistance_spec, parallel_resistance_spec, eligible,
      admittances, impedances.
    rewrite (members_skip g l1 l2 i Habsent). repeat split.
Qed.

End LedgerFacts.

(** * The model on concrete inputs *)

Example Undo_after_Add_example :
  componentsData (state_after (AddComponent (lib := demo_lib) RESISTOR 100%float SERIES ;; Undo) initial)
  = [mkComponent 1 RESISTOR 100%float SERIES].
Proof. reflexivity. Qed.

Example two_100_ohm_in_parallel :
  result_of (CalcParallel [1; 2]) small_circuit = 50%float.
Proof. reflexivity. Qed.

Example three_10_ohm_in_series :
  result_of (CalcSeries [3; 4; 5; 6]) small_circuit = 30%float.
Proof. reflexivity. Qed.

Example one_henry_at_50_Hz :
  let z := result_of (CalcSeriesImpedance (lib := demo_lib) [6] analysisFrequencyHz)
             small_circuit in
  (PrimFloat.abs (z - 2 * M_PI * 50) <? 0x1p-10)%float = true.
Proof. reflexivity. Qed.

(** C2 (counterexample): [AddComponent] called with the value -5 appends the
    component and changes the ledger. *)
Lemma AddComponent_accepts_nonpositive :
  (-5 <=? 0)%float = true
  /\ ledger_of (state_after (AddComponent (lib := demo_lib) RESISTOR (-5)%float SERIES)
                  initial)
     <> ledger_of initial.
Proof. split; [reflexivity|]. cbv. discriminate. Qed.

Lemma DrawAddScreen_rejects_nonpositive_witness :
  StringToDoubleSafe (lib := demo_lib) (textBuffer typed_minus_five) = ((-5)%float, true)
  /\ (-5 <=? 0)%float = true
  /\ true && (0 <? -5)%float = false
  /\ ledger_of (state_after (DrawAddScreen_AddReleased (lib := demo_lib)) typed_minus_five)
     = ledger_of typed_minus_five.
Proof.
  split; [reflexivity|]. split; [reflexivity|]. split; [reflexivity|].
  exact (proj2 (DrawAddScreen_rejects_nonpositive (lib := demo_lib)
                  typed_minus_five (-5)%float true eq_refl eq_refl)).
Defined.

Lemma RemoveComponent_absent_noop_witness :
  ~ In 7 (ids (componentsData one_resistor))
  /\ RemoveComponent 7 one_resistor = (false, one_resistor).
Proof.
  assert (H : ~ In 7 (ids (componentsData one_resistor))).
  { cbn. intros [H|[]]. discriminate H. }
  split; [exact H | exact (RemoveComponent_absent_noop 7 one_resistor H)].
Defined.

(** C6 (counterexample): the value [Undo] returns with an empty undo stack is
    the value it returns with a non-empty one, so no reading of it as a
    boolean is false in the first case and true in the second. *)
Lemma Undo_result_carries_no_boolean :
  undoStack initial = []
  /\ undoStack one_resistor <> []
  /\ forall as_bool : unit -> bool,
       ~ (as_bool (result_of Undo initial) = false
          /\ as_bool (result_of Undo one_resistor) = true).
Proof.
  split; [reflexivity|]. split; [discriminate|].
  intros as_bool [H0 H1].
  change (result_of Undo initial) with tt in H0.
  change (result_of Undo one_resistor) with tt in H1.
  congruence.
Qed.

Lemma Undo_effect_witness :
  Undo initial = (tt, initial)
  /\ Undo one_resistor
     = (tt, restored [mkComponent 1 RESISTOR 100%float SERIES] [] one_resistor).
Proof.
  split.
  - exact (proj1 (Undo_effect initial) eq_refl).
  - exact (proj1 (proj2 (Undo_effect one_resistor)) _ _ eq_refl).
Defined.

Lemma PushSnapshot_log_bounded_witness :
  List.length (opQueue twenty_adds) = 20%nat
  /\ exists oldest rest,
       opQueue twenty_adds = oldest :: rest
       /\ opQueue (state_after (PushSnapshot "Removed component ID=3") twenty_adds)
          = rest ++ [mkOperation "Removed component ID=3"].
Proof.
  split; [reflexivity|].
  exact (proj2 (proj2 (PushSnapshot_log_bounded "Removed component ID=3" twenty_adds
                         (Nat.le_refl 20)))
           eq_refl).
Defined.

Lemma resistance_formulas_witness :
  result_of (CalcSeries [3; 4; 5; 6; 99]) small_circuit = 30%float
  /\ result_of (CalcParallel [1; 2]) small_circuit = 50%float
  /\ eligible small_circuit [6; 99] = []
  /\ result_of (CalcParallel [6; 99]) small_circuit = 0%float.
Proof.
  split; [exact (proj1 (resistance_formulas small_circuit [3; 4; 5; 6; 99]))|].
  split; [exact (proj1 (proj2 (proj2 (resistance_formulas small_circuit [1; 2]))))|].
  split; [reflexivity|].
  exact (proj1 (proj2 (proj2 (proj2 (proj2 (resistance_formulas small_circuit [6; 99])))))
           eq_refl).
Defined.

Lemma queries_read_only_witness :
  state_after (CalcSeries (seriesCircuit small_circuit)) small_circuit = small_circuit
  /\ state_after (CalcParallelImpedance (lib := demo_lib) (parallelCircuit small_circuit)
                   analysisFrequencyHz) small_circuit
     = small_circuit
  /\ ~ In 99 (ids (componentsData small_circuit))
  /\ result_of (CalcSeries [3; 99; 4]) small_circuit
     = result_of (CalcSeries [3; 4]) small_circuit.
Proof.
  assert (H : ~ In 99 (ids (componentsData small_circuit))).
  { cbn. intros [E|[E|[E|[E|[E|[E|[]]]]]]]; discriminate E. }
  split; [exact (proj1 (proj1 (queries_read_only (lib := demo_lib) small_circuit
                                 (seriesCircuit small_circuit) analysisFrequencyHz)))|].
  split; [exact (proj2 (proj2 (proj2 (proj1 (queries_read_only (lib := demo_lib)
                    small_circuit (parallelCircuit small_circuit)
                    analysisFrequencyHz)))))|].
  split; [exact H|].
  exact (proj1 (proj2 (queries_read_only (lib := demo_lib) small_circuit [3; 99; 4]
                         analysisFrequencyHz)
                  [3] [4] 99 eq_refl H)).
Defined.

(** The "Add" button rejects a text that parses to NaN. *)
Example DrawAddScreen_rejects_nan :
  state_after (DrawAddScreen_AddReleased (lib := demo_lib)) typed_nan
  = set_statusMessage (fun _ => "Invalid value. Enter a positive number."%string)
      typed_nan.
Proof. reflexivity. Qed.

Lemma assigned_ids_increasing_witness :
  Z.of_nat (count_adds [CallAdd RESISTOR 100%float SERIES; CallAdd CAPACITOR 1%float PARALLEL;
                        CallRemove 1; CallUndo; CallAdd INDUCTOR 1%float SERIES])
  < INT_MAX
  /\ StronglySorted Z.lt
       (assigned_ids (lib := demo_lib)
          [CallAdd RESISTOR 100%float SERIES; CallAdd CAPACITOR 1%float PARALLEL;
           CallRemove 1; CallUndo; CallAdd INDUCTOR 1%float SERIES] initial).
Proof.
  assert (H : Z.of_nat (count_adds
                [CallAdd RESISTOR 100%float SERIES; CallAdd CAPACITOR 1%float PARALLEL;
                 CallRemove 1; CallUndo; CallAdd INDUCTOR 1%float SERIES]) < INT_MAX)
    by reflexivity.
  split; [exact H|].
  exact (proj1 (assigned_ids_increasing (lib := demo_lib) _ H)).
Defined.

Example assigned_ids_example :
  assigned_ids (lib := demo_lib)
    [CallAdd RESISTOR 100%float SERIES; CallAdd CAPACITOR 1%float PARALLEL;
     CallRemove 1; CallUndo; CallAdd INDUCTOR 1%float SERIES] initial
  = [1; 2; 3].
Proof. reflexivity. Qed.



(** * Further properties of the ledger *)

Section FurtherFacts.

Context {lib : CxxLib}.

Lemma result_seq {A B} (m : M A) (k : M B) (g : Globals) :
  result_of (m ;; k) g = result_of k (state_after m g).
Proof. unfold result_of, state_after, bind. now destruct (m g). Qed.

Lemma state_seq {A B} (m : M A) (k : M B) (g : Globals) :
  state_after (m ;; k) g = state_after k (state_after m g).
Proof. unfold state_after, bind. now destruct (m g). Qed.

Lemma reachable_consistent (cs : list Call) : consistent (state_after (run cs) initial).
Proof. apply consistent_run, consistent_initial. Qed.

(** ** Lookup *)

Lemma find_first_present (l : list Component) (c : Component) :
  NoDup (ids l) -> In c l -> find_first (id c) l = Some c.
Proof.
  induction l as [|x rest IH]; cbn; [tauto|].
  intros H Hin. inversion H as [|? ? Hnotin Hrest]; subst.
  destruct Hin as [->|Hin]; [now rewrite Z.eqb_refl|].
  destruct (Z.eqb_spec (id x) (id c)) as [E|E]; [|auto].
  exfalso. apply Hnotin. rewrite E. now apply in_map.
Qed.

Lemma find_first_snoc (j : Z) (l : list Component) (c : Component) :
  find_first j (l ++ [c])
  = match find_first j l with
    | Some x => Some x
    | None => if id c =? j then Some c else None
    end.
Proof.
  induction l as [|x rest IH]; cbn; [reflexivity|].
  destruct (id x =? j); [reflexivity | exact IH].
Qed.

Lemma find_first_erase_other (i j : Z) (l : list Component) :
  j <> i -> find_first j (erase_first i l) = find_first j l.
Proof.
  intros Hji. induction l as [|x rest IH]; cbn; [reflexivity|].
  destruct (Z.eqb_spec (id x) i) as [E|E].
  - destruct (Z.eqb_spec (id x) j); [lia | reflexivity].
  - cbn. destruct (id x =? j); [reflexivity | exact IH].
Qed.

Lemma erase_first_filter (i : Z) (l : list Component) :
  NoDup (ids l) -> erase_first i l = filter (fun c => negb (id c =? i)) l.
Proof.
  induction l as [|x rest IH]; cbn; [reflexivity|].
  intros H. inversion H as [|? ? Hnotin Hrest]; subst.
  destruct (Z.eqb_spec (id x) i) as [E|E]; cbn.
  - subst i. symmetry. apply forallb_filter_id. apply forallb_forall.
    intros c Hc. destruct (Z.eqb_spec (id c) (id x)) as [E|E]; [|reflexivity].
    exfalso. apply Hnotin. rewrite <- E. now apply in_map.
  - f_equal. auto.
Qed.

Lemma erase_first_absent (i : Z) (l : list Component) :
  find_first i l = None -> erase_first i l = l.
Proof.
  induction l as [|x rest IH]; cbn; [reflexivity|].
  destruct (id x =? i); [discriminate|]. intros H. f_equal. auto.
Qed.

Lemma list_remove_filter (v : Z) (l : list Z) :
  list_remove v l = filter (fun x => negb (x =? v)) l.
Proof.
  induction l as [|x rest IH]; cbn; [reflexivity|].
  destruct (x =? v); cbn; [exact IH | now f_equal].
Qed.

Lemma not_in_filtered (i : Z) (l : list Component) :
  ~ In i (ids (filter (fun c => negb (id c =? i)) l)).
Proof.
  unfold ids. rewrite in_map_iff. intros (c & Hc & Hin).
  apply filter_In in Hin. destruct Hin as [_ Hne].
  rewrite Hc, Z.eqb_refl in Hne. discriminate.
Qed.

Lemma find_first_absent (i : Z) (l : list Component) :
  find_first i l = None -> ~ In i (ids l).
Proof.
  induction l as [|x rest IH]; cbn; [tauto|].
  destruct (Z.eqb_spec (id x) i) as [E|E]; [discriminate|].
  intros H [F|F]; [contradiction | now apply IH].
Qed.

(** X1: [FindComponent] changes no global; a component it returns is in the
    collection, has the id asked for and is the first of the collection with
    that id; it returns null exactly when no component has the id. *)
Theorem FindComponent_lookup (id0 : Z) (g : Globals) :
  state_after (FindComponent id0) g = g
  /\ (forall c, result_of (FindComponent id0) g = Some c ->
                In c (componentsData g) /\ id c = id0
                /\ exists before after,
                     componentsData g = before ++ c :: after
                     /\ ~ In id0 (ids before))
  /\ (result_of (FindComponent id0) g = None <-> ~ In id0 (ids (componentsData g))).
Proof.
  change (state_after (FindComponent id0) g) with g.
  change (result_of (FindComponent id0) g) with (find_first id0 (componentsData g)).
  split; [reflexivity|]. generalize (componentsData g) as l. intros l. split.
  - induction l as [|x rest IH]; cbn; [discriminate|]. intros c.
    destruct (Z.eqb_spec (id x) id0) as [E|E].
    + intros [= <-]. split; [now left|]. split; [exact E|].
      exists [], rest. split; [reflexivity | cbn; tauto].
    + intros H. destruct (IH c H) as (Hin & Hid & before & after & Hl & Hb).
      split; [now right|]. split; [exact Hid|].
      exists (x :: before), after. split; [cbn; now rewrite Hl|].
      cbn. intros [F|F]; [contradiction | tauto].
  - split; [apply find_first_absent | apply find_first_none].
Qed.

(** X2: in every reachable state, looking up the id an addition has just
    given out returns the component added, and the addition changes the
    result of no lookup of another id. *)
Theorem AddComponent_then_FindComponent
    (cs : list Call) (t : ComponentType) (v : float) (ct : CircuitType) :
  let g := state_after (run cs) initial in
  result_of (AddComponent t v ct ;; FindComponent (nextId g)) g
  = Some (mkComponent (nextId g) t v ct)
  /\ forall j, j <> nextId g ->
       result_of (AddComponent t v ct ;; FindComponent j) g
       = result_of (FindComponent j) g.
Proof.
  cbn zeta. set (g := state_after (run cs) initial).
  assert (Hc : consistent g) by apply reachable_consistent.
  assert (E : forall j, result_of (AddComponent t v ct ;; FindComponent j) g
                        = find_first j (componentsData g ++ [mkComponent (nextId g) t v ct])).
  { intros j. rewrite result_seq. unfold state_after. now rewrite AddComponent_run. }
  split.
  - rewrite E, find_first_snoc.
    rewrite (find_first_none _ _ (below_not_in _ _ (ids_below _ Hc))).
    cbn. now rewrite Z.eqb_refl.
  - intros j Hj. rewrite E, find_first_snoc.
    change (result_of (FindComponent j) g) with (find_first j (componentsData g)).
    destruct (find_first j (componentsData g)); [reflexivity|].
    cbn. destruct (Z.eqb_spec (nextId g) j); [congruence | reflexivity].
Qed.

Lemma RemoveComponent_state (i : Z) (g : Globals) :
  state_after (RemoveComponent i) g
  = match find_first i (componentsData g) with
    | Some _ => removed i g
    | None => g
    end.
Proof.
  unfold state_after. destruct (find_first i (componentsData g)) as [c|] eqn:E.
  - now rewrite (RemoveComponent_found _ _ _ E).
  - now rewrite (RemoveComponent_missing _ _ E).
Qed.

Lemma RemoveComponent_collection (i : Z) (g : Globals) :
  componentsData (state_after (RemoveComponent i) g) = erase_first i (componentsData g).
Proof.
  rewrite RemoveComponent_state.
  destruct (find_first i (componentsData g)) eqn:E; [reflexivity|].
  symmetry. now apply erase_first_absent.
Qed.

(** X3: in every reachable state, after [RemoveComponent i] no lookup finds
    the id [i], and the lookup of every other id gives what it gave before. *)
Theorem RemoveComponent_then_FindComponent (cs : list Call) (i : Z) :
  let g := state_after (run cs) initial in
  result_of (RemoveComponent i ;; FindComponent i) g = None
  /\ forall j, j <> i ->
       result_of (RemoveComponent i ;; FindComponent j) g
       = result_of (FindComponent j) g.
Proof.
  cbn zeta. set (g := state_after (run cs) initial).
  assert (Hc : consistent g) by apply reachable_consistent.
  assert (E : forall j, result_of (RemoveComponent i ;; FindComponent j) g
                        = find_first j (erase_first i (componentsData g))).
  { intros j. rewrite result_seq. rewrite <- RemoveComponent_collection. reflexivity. }
  split.
  - rewrite E. apply find_first_none.
    rewrite (erase_first_filter _ _ (ids_nodup _ Hc)). apply not_in_filtered.
  - intros j Hj. rewrite E. now apply find_first_erase_other.
Qed.

(** X4: [RemoveComponent] returns true exactly when a component of the
    collection has the id; when it does, the collection it found is pushed on
    the undo stack, the collection has one component fewer, and [nextId] is
    as before. *)
Theorem RemoveComponent_result (i : Z) (g : Globals) :
  (result_of (RemoveComponent i) g = true <-> In i (ids (componentsData g)))
  /\ (result_of (RemoveComponent i) g = true ->
      let g' := state_after (RemoveComponent i) g in
      undoStack g' = componentsData g :: undoStack g
      /\ S (List.length (componentsData g')) = List.length (componentsData g)
      /\ nextId g' = nextId g).
Proof.
  unfold result_of, state_after.
  destruct (find_first i (componentsData g)) as [c|] eqn:E.
  - rewrite (RemoveComponent_found _ _ _ E). cbn [fst snd]. split.
    + split; [intros _ | reflexivity].
      apply find_first_some in E. destruct E as [Hin <-]. now apply in_map.
    + intros _. cbn. split; [reflexivity|]. split; [|reflexivity].
      clear -E. revert E. generalize (componentsData g) as l.
      induction l as [|x rest IH]; cbn; [discriminate|].
      destruct (id x =? i); [reflexivity|]. intros E. cbn. f_equal. auto.
  - rewrite (RemoveComponent_missing _ _ E). cbn [fst snd]. split.
    + split; [discriminate|]. intros Hin. exfalso.
      now apply (find_first_absent _ _ E).
    + discriminate.
Qed.

(** X5: in every reachable state, [RemoveComponent i] leaves exactly the
    components whose id is not [i], in their order, and each group list
    without [i], in its order. *)
Theorem RemoveComponent_removes_exactly (cs : list Call) (i : Z) :
  let g := state_after (run cs) initial in
  let g' := state_after (RemoveComponent i) g in
  componentsData g' = filter (fun c => negb (id c =? i)) (componentsData g)
  /\ seriesCircuit g' = filter (fun x => negb (x =? i)) (seriesCircuit g)
  /\ parallelCircuit g' = filter (fun x => negb (x =? i)) (parallelCircuit g).
Proof.
  cbn zeta. set (g := state_after (run cs) initial).
  assert (Hc : consistent g) by apply reachable_consistent.
  split.
  - rewrite RemoveComponent_collection. apply erase_first_filter, Hc.
  - rewrite RemoveComponent_state, <- !list_remove_filter.
    destruct (find_first i (componentsData g)) eqn:E; [split; reflexivity|].
    assert (Hi : ~ In i (ids (componentsData g))) by now apply find_first_absent.
    destruct (consistent_membership g Hc) as [Hunion _].
    split; symmetry; apply list_remove_absent; intros Hin; apply Hi, Hunion; tauto.
Qed.

(** X6: in every reachable state, removing a component that is present and
    then calling [Undo] gives back the collection, both group lists, the undo
    stack and [nextId] as they were before the removal. *)
Theorem Undo_inverts_RemoveComponent (cs : list Call) (i : Z) :
  let g := state_after (run cs) initial in
  In i (ids (componentsData g)) ->
  let g' := state_after (RemoveComponent i ;; Undo) g in
  componentsData g' = componentsData g
  /\ seriesCircuit g' = seriesCircuit g
  /\ parallelCircuit g' = parallelCircuit g
  /\ undoStack g' = undoStack g
  /\ nextId g' = nextId g.
Proof.
  cbn zeta. set (g := state_after (run cs) initial). intros Hin.
  assert (Hc : consistent g) by apply reachable_consistent.
  destruct (find_first i (componentsData g)) as [c|] eqn:E;
    [|now apply find_first_absent in E].
  assert (Eg : state_after (RemoveComponent i ;; Undo) g
               = restored (componentsData g) (undoStack g) (removed i g)).
  { rewrite state_seq, RemoveComponent_state, E. unfold state_after.
    now rewrite (Undo_pop (removed i g) _ _ eq_refl). }
  rewrite Eg. cbn [restored removed componentsData seriesCircuit parallelCircuit
                     undoStack nextId].
  rewrite (series_sync _ Hc), (parallel_sync _ Hc). repeat split.
Qed.

(** ** The group lists in reachable states *)

Lemma nodup_ids_filter (f : Component -> bool) (l : list Component) :
  NoDup (ids l) -> NoDup (ids (filter f l)).
Proof.
  induction l as [|x rest IH]; cbn; [auto|].
  intros H. inversion H as [|? ? Hnotin Hrest]; subst.
  destruct (f x); cbn; [|auto]. constructor; [|auto].
  intros Hin. apply Hnotin. eapply ids_filter_incl; eauto.
Qed.

Lemma filter_lengths {A} (f : A -> bool) (l : list A) :
  (List.length (filter f l) + List.length (filter (fun x => negb (f x)) l)
   = List.length l)%nat.
Proof.
  induction l as [|x rest IH]; cbn; [reflexivity|].
  destruct (f x); cbn; lia.
Qed.

Lemma members_of_sublist (g : Globals) (l : list Component) :
  NoDup (ids (componentsData g)) ->
  (forall c, In c l -> In c (componentsData g)) ->
  members g (ids l) = l.
Proof.
  intros Hn. induction l as [|x rest IH]; intros Hsub; [reflexivity|].
  change (ids (x :: rest)) with (id x :: ids rest).
  rewrite members_cons, (find_first_present _ _ Hn (Hsub x (or_introl eq_refl))).
  cbn. f_equal. apply IH. intros c Hc. apply Hsub. now right.
Qed.

(** X7: in every reachable state no two components have the same id, the
    series list is the ids of the components marked SERIES in the order of
    the collection, the parallel list is the ids of the others in that order,
    and neither list repeats an id. *)
Theorem group_lists_follow_collection (cs : list Call) :
  let g := state_after (run cs) initial in
  NoDup (ids (componentsData g))
  /\ seriesCircuit g = series_of (componentsData g)
  /\ parallelCircuit g = parallel_of (componentsData g)
  /\ NoDup (seriesCircuit g)
  /\ NoDup (parallelCircuit g).
Proof.
  cbn zeta. set (g := state_after (run cs) initial).
  destruct (reachable_consistent cs) as [Hb Hn Hs Hp Hst]. fold g in Hb, Hn, Hs, Hp, Hst.
  rewrite Hs, Hp. unfold series_of, parallel_of.
  repeat split; try assumption; now apply nodup_ids_filter.
Qed.

(** X8: in every reachable state the sizes of the two group lists add up to
    the size of the collection (the three counts of the main menu). *)
Theorem group_counts_add_up (cs : list Call) :
  let g := state_after (run cs) initial in
  (List.length (seriesCircuit g) + List.length (parallelCircuit g)
   = List.length (componentsData g))%nat.
Proof.
  cbn zeta. set (g := state_after (run cs) initial).
  destruct (reachable_consistent cs) as [_ _ Hs Hp _]. fold g in Hs, Hp.
  rewrite Hs, Hp. unfold series_of, parallel_of, ids. rewrite !length_map.
  apply filter_lengths.
Qed.

(** X9: in every reachable state each id of a group list denotes a component,
    so the queries the screens make on the group lists skip nothing: the
    series total is the sum of the values of the resistors marked SERIES, in
    collection order, and the parallel total is computed from the resistors
    not marked SERIES. *)
Theorem totals_of_group_lists (cs : list Call) :
  let g := state_after (run cs) initial in
  let series := filter in_series (componentsData g) in
  let parallel := filter (fun c => negb (in_series c)) (componentsData g) in
  members g (seriesCircuit g) = series
  /\ members g (parallelCircuit g) = parallel
  /\ result_of (CalcSeries (seriesCircuit g)) g
     = float_sum (map value (filter is_resistor series))
  /\ result_of (CalcParallel (parallelCircuit g)) g
     = (let s := float_sum
                   (map (fun c => 1 / value c)%float
                      (filter (fun c => is_resistor c && negb (value c =? 0)%float)
                         parallel)) in
        if (s =? 0)%float then 0%float else (1 / s)%float).
Proof.
  cbn zeta. set (g := state_after (run cs) initial).
  destruct (reachable_consistent cs) as [_ Hn Hs Hp _]. fold g in Hn, Hs, Hp.
  assert (Ms : members g (seriesCircuit g) = filter in_series (componentsData g)).
  { rewrite Hs. apply members_of_sublist; [exact Hn|].
    intros c Hc. now apply filter_In in Hc. }
  assert (Mp : members g (parallelCircuit g)
               = filter (fun c => negb (in_series c)) (componentsData g)).
  { rewrite Hp. apply members_of_sublist; [exact Hn|].
    intros c Hc. now apply filter_In in Hc. }
  unfold result_of. rewrite CalcSeries_run, CalcParallel_run. cbn [fst].
  unfold series_resistance_spec, parallel_resistance_spec, eligible.
  rewrite Ms, Mp. repeat split.
Qed.

(** ** Ids are consecutive *)

(** X10: in a sequence of calls from any state in which [nextId] does not
    overflow, the ids stored in the components the additions append are
    consecutive from the [nextId] the sequence starts with, one per addition,
    and afterwards [nextId] is that start plus the number of additions,
    whatever removals and undos lie between. *)
Theorem assigned_ids_consecutive (cs : list Call) (g : Globals) :
  nextId g + Z.of_nat (count_adds cs) <= INT_MAX ->
  assigned_ids cs g = consecutive (nextId g) (count_adds cs)
  /\ nextId (state_after (run cs) g) = nextId g + Z.of_nat (count_adds cs)
  /\ nextId (state_after (run cs) g) <= INT_MAX.
Proof.
  intros Hbound. destruct (assigned_ids_run cs g) as [Hids Hnext].
  split; [exact Hids|]. split; [exact Hnext | lia].
Qed.

(** ** The operation queue over many calls *)

Lemma lastn_short {A} (n : nat) (l : list A) : (List.length l <= n)%nat -> lastn n l = l.
Proof.
  intros H. unfold lastn. replace (List.length l - n)%nat with O by lia. reflexivity.
Qed.

Lemma lastn_app_lastn {A} (n : nat) (l1 l2 : list A) :
  lastn n (lastn n l1 ++ l2) = lastn n (l1 ++ l2).
Proof.
  unfold lastn. set (k := (List.length l1 - n)%nat).
  rewrite !length_app, length_skipn.
  replace (List.length l1 + List.length l2 - n)%nat
    with ((List.length l1 - k + List.length l2 - n) + k)%nat by lia.
  rewrite <- skipn_skipn. f_equal.
  rewrite skipn_app. replace (k - List.length l1)%nat with O by lia. reflexivity.
Qed.

Lemma logged_lastn (desc : string) (q : list Operation) :
  (List.length q <= 20)%nat -> logged desc q = lastn 20 (q ++ [mkOperation desc]).
Proof.
  intros H. unfold logged, lastn. rewrite length_app. cbn [List.length].
  destruct (Nat.ltb_spec 20 (List.length q + 1)) as [L|L].
  - replace (List.length q + 1 - 20)%nat with 1%nat by lia. reflexivity.
  - replace (List.length q + 1 - 20)%nat with O by lia. reflexivity.
Qed.

(** X11: over any number of [PushSnapshot] calls the operation queue holds
    the 20 most recent entries, oldest first: started with at most 20
    entries, it ends as the last 20 of the old entries followed by the new
    ones. *)
Theorem log_keeps_last_twenty (descs : list string) (g : Globals) :
  (List.length (opQueue g) <= 20)%nat ->
  opQueue (state_after (push_all descs) g)
  = lastn 20 (opQueue g ++ map mkOperation descs).
Proof.
  revert g. induction descs as [|d rest IH]; intros g H.
  - cbn. rewrite app_nil_r. symmetry. now apply lastn_short.
  - cbn [push_all map]. rewrite state_seq.
    assert (Eq : opQueue (state_after (PushSnapshot d) g) = logged d (opQueue g)).
    { unfold state_after. now rewrite PushSnapshot_run. }
    rewrite IH; rewrite Eq; [|now apply logged_length].
    rewrite (logged_lastn _ _ H), lastn_app_lastn, <- app_assoc. reflexivity.
Qed.

(** ** Presentation helpers *)

(** X12: [ClampU8] saturates: its result is [v] limited to 0..255, so it is
    an [unsigned char] value, it is [v] itself when [v] is one already (the
    conversion never wraps), and it is monotone. *)
Theorem ClampU8_saturates (v : Z) :
  Gfx.ClampU8 v = Z.max 0 (Z.min 255 v)
  /\ 0 <= Gfx.ClampU8 v <= 255
  /\ (0 <= v <= 255 -> Gfx.ClampU8 v = v)
  /\ (forall w, v <= w -> Gfx.ClampU8 v <= Gfx.ClampU8 w).
Proof.
  assert (E : forall x, Gfx.ClampU8 x = Z.max 0 (Z.min 255 x)).
  { intros x. unfold Gfx.ClampU8, Gfx.to_uchar.
    destruct (Z.ltb_spec x 0); [lia|]. destruct (Z.ltb_spec 255 x); [lia|].
    rewrite Z.mod_small; lia. }
  split; [apply E|]. split; [rewrite E; lia|]. split; [rewrite E; lia|].
  intros w Hvw. rewrite !E. lia.
Qed.

(** X13: the fill colour of a button is a colour again; hovering leaves
    alpha as it is and raises each colour channel by 25, stopping at 255, so
    no channel wraps around to a darker value. *)
Theorem DrawButtonEx_fill_brightens (hovered : bool) (baseColor : Gfx.Color) :
  Gfx.valid baseColor ->
  let fill := Gfx.DrawButtonEx_fill hovered baseColor in
  Gfx.valid fill
  /\ Gfx.a fill = Gfx.a baseColor
  /\ Gfx.r baseColor <= Gfx.r fill
  /\ Gfx.g baseColor <= Gfx.g fill
  /\ Gfx.b baseColor <= Gfx.b fill
  /\ (hovered = true ->
      Gfx.r fill = Z.min 255 (Gfx.r baseColor + 25)
      /\ Gfx.g fill = Z.min 255 (Gfx.g baseColor + 25)
      /\ Gfx.b fill = Z.min 255 (Gfx.b baseColor + 25)).
Proof.
  intros (Hr & Hg & Hb & Ha). cbn zeta.
  assert (E : forall x, 0 <= x -> Gfx.ClampU8 (x + 25) = Z.min 255 (x + 25)).
  { intros x Hx. unfold Gfx.ClampU8, Gfx.to_uchar.
    destruct (Z.ltb_spec (x + 25) 0); [lia|].
    destruct (Z.ltb_spec 255 (x + 25)); [lia|]. rewrite Z.mod_small; lia. }
  unfold Gfx.valid, Gfx.DrawButtonEx_fill. destruct hovered; cbn.
  - rewrite !E by lia. repeat split; lia.
  - repeat split; try lia; discriminate.
Qed.

(** ** Text input *)

Lemma string_length_append (s1 s2 : string) :
  String.length (s1 ++ s2)%string = (String.length s1 + String.length s2)%nat.
Proof. induction s1 as [|c rest IH]; cbn; [reflexivity | now rewrite IH]. Qed.

Lemma string_append_assoc (s1 s2 s3 : string) :
  ((s1 ++ s2) ++ s3)%string = (s1 ++ (s2 ++ s3))%string.
Proof. induction s1 as [|c rest IH]; cbn; [reflexivity | now rewrite IH]. Qed.

Lemma string_append_empty (s : string) : (s ++ EmptyString)%string = s.
Proof. induction s as [|c rest IH]; cbn; [reflexivity | now rewrite IH]. Qed.

Lemma string_pop_back_length (s : string) :
  (String.length (string_pop_back s) <= String.length s)%nat.
Proof.
  induction s as [|c rest IH]; cbn; [lia|].
  destruct rest as [|c' rest']; cbn in *; lia.
Qed.

Lemma string_pop_back_snoc (s : string) (c : Ascii.ascii) :
  string_pop_back (s ++ String c EmptyString) = s.
Proof.
  induction s as [|x rest IH]; [reflexivity|].
  cbn [append string_pop_back]. rewrite IH.
  destruct rest; reflexivity.
Qed.

Lemma HandleTextInput_loop_bounded (buf : string) (maxLen : Z) (keys : list Z) :
  Z.of_nat (String.length buf) <= maxLen ->
  Z.of_nat (String.length (HandleTextInput_loop buf maxLen keys)) <= maxLen.
Proof.
  revert buf. induction keys as [|key rest IH]; intros buf H; cbn; [exact H|].
  destruct (0 <? key); [|exact H]. apply IH.
  destruct (32 <=? key); cbn [andb]; [|exact H].
  destruct (Z.ltb_spec (Z.of_nat (String.length buf)) maxLen); [|exact H].
  rewrite string_length_append. cbn. lia.
Qed.

Lemma HandleTextInput_loop_extends (buf : string) (maxLen : Z) (keys : list Z) :
  exists suffix, HandleTextInput_loop buf maxLen keys = (buf ++ suffix)%string.
Proof.
  revert buf. induction keys as [|key rest IH]; intros buf; cbn.
  - exists EmptyString. now rewrite string_append_empty.
  - destruct (0 <? key); [|exists EmptyString; now rewrite string_append_empty].
    destruct ((32 <=? key) && (Z.of_nat (String.length buf) <? maxLen)); [|apply IH].
    destruct (IH (buf ++ String (char_of_key key) EmptyString)%string) as [suffix Hs].
    exists (String (char_of_key key) EmptyString ++ suffix)%string.
    now rewrite Hs, string_append_assoc.
Qed.

(** X14: [HandleTextInput] never lets a buffer that fits in [maxLen]
    characters grow beyond [maxLen]; a frame without backspace only appends
    to the buffer, and backspace after one accepted key gives the buffer
    back. *)
Theorem HandleTextInput_bounded (buf : string) (maxLen : Z) (keys : list Z)
    (backspace : bool) :
  Z.of_nat (String.length buf) <= maxLen ->
  Z.of_nat (String.length (HandleTextInput buf maxLen keys backspace)) <= maxLen
  /\ (exists suffix, HandleTextInput buf maxLen keys false = (buf ++ suffix)%string)
  /\ (forall key, 32 <= key -> Z.of_nat (String.length buf) < maxLen ->
                  HandleTextInput buf maxLen [key] true = buf).
Proof.
  intros H. split; [|split].
  - unfold HandleTextInput.
    pose proof (HandleTextInput_loop_bounded buf maxLen keys H) as Hl.
    destruct (backspace && _); [|exact Hl].
    pose proof (string_pop_back_length (HandleTextInput_loop buf maxLen keys)). lia.
  - unfold HandleTextInput. cbn [andb]. apply HandleTextInput_loop_extends.
  - intros key Hkey Hroom. unfold HandleTextInput. cbn [HandleTextInput_loop].
    destruct (Z.ltb_spec 0 key); [|lia]. destruct (Z.leb_spec 32 key); [|lia].
    destruct (Z.ltb_spec (Z.of_nat (String.length buf)) maxLen); [|lia].
    cbn [andb].
    replace (String.eqb (buf ++ String (char_of_key key) EmptyString) EmptyString)
      with false.
    + cbn [negb]. apply string_pop_back_snoc.
    + symmetry. apply String.eqb_neq. destruct buf; discriminate.
Qed.

(** ** The click handlers *)

Variable stoi : string -> option Z.

Lemma DrawAddScreen_state_accepted (g : Globals) (v : float) :
  StringToDoubleSafe (textBuffer g) = (v, true) ->
  (0 <? v)%float = true ->
  state_after DrawAddScreen_AddReleased g
  = set_textBuffer (fun _ => EmptyString)
      (set_statusMessage (fun _ => "Component added successfully!"%string)
         (added (addType g) v (addCircuit g) g)).
Proof.
  intros Hparse Hpos. unfold state_after, DrawAddScreen_AddReleased.
  unfold bind at 1, gets at 1. cbn [fst snd]. rewrite Hparse, Hpos. cbn [andb].
  unfold bind, gets, modify. rewrite AddComponent_run. reflexivity.
Qed.

(** X15: when the text of the buffer parses to a value greater than 0, the
    "Add" button appends a component of the selected kind and group with
    that value and the id [nextId], pushes the snapshot and advances
    [nextId] as [AddComponent] does, reports success and empties the text
    buffer. *)
Theorem DrawAddScreen_accepts_positive (g : Globals) (v : float) :
  StringToDoubleSafe (textBuffer g) = (v, true) ->
  (0 <? v)%float = true ->
  let g' := state_after DrawAddScreen_AddReleased g in
  componentsData g'
  = componentsData g ++ [mkComponent (nextId g) (addType g) v (addCircuit g)]
  /\ ledger_of g' = ledger_of (added (addType g) v (addCircuit g) g)
  /\ nextId g' = Z.succ (nextId g)
  /\ statusMessage g' = "Component added successfully!"%string
  /\ textBuffer g' = EmptyString.
Proof.
  intros Hparse Hpos. cbn zeta.
  rewrite (DrawAddScreen_state_accepted g v Hparse Hpos). repeat split.
Qed.

Lemma DrawRemoveScreen_state (g : Globals) :
  state_after (DrawRemoveScreen_RemoveReleased stoi) g
  = set_textBuffer (fun _ => EmptyString)
      match StringToIntSafe stoi (textBuffer g) with
      | (i, true) =>
          match find_first i (componentsData g) with
          | Some _ =>
              set_statusMessage (fun _ => "Component removed!"%string) (removed i g)
          | None => set_statusMessage (fun _ => "Not found."%string) g
          end
      | (_, false) => set_statusMessage (fun _ => "Invalid ID."%string) g
      end.
Proof.
  unfold state_after, DrawRemoveScreen_RemoveReleased.
  unfold bind at 1, gets at 1. cbn [fst snd].
  destruct (StringToIntSafe stoi (textBuffer g)) as [i [|]]; [|reflexivity].
  unfold bind, modify. destruct (find_first i (componentsData g)) as [c|] eqn:E.
  - now rewrite (RemoveComponent_found _ _ _ E).
  - now rewrite (RemoveComponent_missing _ _ E).
Qed.

(** X16: the "Remove" button always empties the text buffer.  It reports
    "Component removed!" exactly when the text parses to the id of a
    component, and then the ledger is the one [RemoveComponent] leaves; with
    "Not found." (the id of no component) and "Invalid ID." (no number) the
    ledger is unchanged: nothing is pushed or logged. *)
Theorem DrawRemoveScreen_outcomes (g : Globals) :
  let g' := state_after (DrawRemoveScreen_RemoveReleased stoi) g in
  textBuffer g' = EmptyString
  /\ match StringToIntSafe stoi (textBuffer g) with
     | (i, true) =>
         (In i (ids (componentsData g)) ->
          statusMessage g' = "Component removed!"%string
          /\ ledger_of g' = ledger_of (removed i g))
         /\ (~ In i (ids (componentsData g)) ->
             statusMessage g' = "Not found."%string /\ ledger_of g' = ledger_of g)
     | (_, false) =>
         statusMessage g' = "Invalid ID."%string /\ ledger_of g' = ledger_of g
     end.
Proof.
  cbn zeta. rewrite DrawRemoveScreen_state. split; [reflexivity|].
  destruct (StringToIntSafe stoi (textBuffer g)) as [i [|]]; [|split; reflexivity].
  destruct (find_first i (componentsData g)) as [c|] eqn:E; split; intros Hin.
  - split; reflexivity.
  - exfalso. apply Hin. apply find_first_some in E. destruct E as [Hc <-].
    now apply in_map.
  - exfalso. now apply (find_first_absent _ _ E).
  - split; reflexivity.
Qed.

(** ** Values stored through the user interface *)

Lemma pos_not_zero (v : float) : (0 <? v)%float = true -> (v =? 0)%float = false.
Proof.
  rewrite ltb_spec, FloatAxioms.eqb_spec. change (Prim2SF 0) with (S754_zero false).
  destruct (Prim2SF v) as [s|s| |s m e]; try destruct s; cbn; congruence.
Qed.

Lemma sound_same_ledger (g g' : Globals) :
  ledger_of g = ledger_of g' -> sound g -> sound g'.
Proof.
  unfold ledger_of. intros [= Ec Es Ep Eu Eq En] ([Hb Hn Hs Hp Hst] & Hv & Hsv).
  split; [split|split]; rewrite <- ?Ec, <- ?Es, <- ?Ep, <- ?Eu, <- ?En; assumption.
Qed.

Lemma positive_erase_first (i : Z) (l : list Component) :
  positive_values l -> positive_values (erase_first i l).
Proof.
  unfold positive_values. induction 1 as [|c rest Hc Hrest IH]; cbn; [constructor|].
  destruct (id c =? i); [exact Hrest | now constructor].
Qed.

Lemma sound_added (t : ComponentType) (v : float) (ct : CircuitType) (g : Globals) :
  (0 <? v)%float = true -> sound g -> sound (added t v ct g).
Proof.
  intros Hpos (Hc & Hv & Hsv).
  assert (Hv' : positive_values (componentsData g ++ [mkComponent (nextId g) t v ct])).
  { apply Forall_app. split; [exact Hv | constructor; [exact Hpos | constructor]]. }
  split; [now apply consistent_added|]. split; [exact Hv'|].
  cbn. constructor; assumption.
Qed.

Lemma sound_removed (i : Z) (g : Globals) : sound g -> sound (removed i g).
Proof.
  intros (Hc & Hv & Hsv). split; [now apply consistent_removed|].
  split; cbn; [now apply positive_erase_first | constructor; assumption].
Qed.

Lemma sound_undo (g : Globals) : sound g -> sound (state_after Undo g).
Proof.
  intros (Hc & Hv & Hsv). unfold state_after.
  destruct (undoStack g) as [|top rest] eqn:E.
  - rewrite (Undo_empty _ E). cbn [snd].
    split; [exact Hc | split; [exact Hv | rewrite E; exact Hsv]].
  - rewrite (Undo_pop _ _ _ E).
    inversion Hsv as [|? ? Htop Hrest]; subst.
    split; [now apply consistent_restored|]. split; assumption.
Qed.

Lemma sound_ui_exec (e : UiEvent) (g : Globals) :
  sound g -> sound (state_after (ui_exec stoi e) g).
Proof.
  intros H. destruct e as [text t ct status| | |]; cbn [ui_exec].
  - apply (sound_same_ledger g); [reflexivity | exact H].
  - destruct (StringToDoubleSafe (textBuffer g)) as [v ok] eqn:Hparse.
    destruct (ok && (0 <? v)%float) eqn:Hguard.
    + apply andb_true_iff in Hguard. destruct Hguard as [-> Hpos].
      rewrite (DrawAddScreen_state_accepted g v Hparse Hpos).
      apply (sound_same_ledger (added (addType g) v (addCircuit g) g));
        [reflexivity | now apply sound_added].
    + apply (sound_same_ledger g); [|exact H].
      unfold state_after, DrawAddScreen_AddReleased.
      unfold bind at 1, gets at 1. cbn [fst snd]. rewrite Hparse, Hguard.
      reflexivity.
  - rewrite DrawRemoveScreen_state.
    destruct (StringToIntSafe stoi (textBuffer g)) as [i [|]].
    + destruct (find_first i (componentsData g)).
      * apply (sound_same_ledger (removed i g)); [reflexivity | now apply sound_removed].
      * apply (sound_same_ledger g); [reflexivity | exact H].
    + apply (sound_same_ledger g); [reflexivity | exact H].
  - unfold DrawMainMenu_UndoReleased. rewrite !state_seq. apply sound_undo.
    apply (sound_same_ledger g); [reflexivity | exact H].
Qed.

Lemma sound_ui_run (es : list UiEvent) (g : Globals) :
  sound g -> sound (state_after (ui_run stoi es) g).
Proof.
  revert g. induction es as [|e rest IH]; intros g H; [exact H|].
  cbn [ui_run]. rewrite state_seq. apply IH. now apply sound_ui_exec.
Qed.

(** X17: whatever the user does, every component in the collection and in
    every snapshot of the undo stack has a value greater than 0, because the
    "Add" button is the only way in and checks it; so no stored value is 0 or
    NaN, and the tests for a zero value in [CalcParallel] and in the
    capacitor impedance never find one.  The membership invariant holds in
    these states as well. *)
Theorem ui_values_positive (es : list UiEvent) :
  let g := state_after (ui_run stoi es) initial in
  positive_values (componentsData g)
  /\ Forall positive_values (undoStack g)
  /\ Forall (fun c => (value c =? 0)%float = false) (componentsData g)
  /\ membership_invariant g.
Proof.
  cbn zeta.
  assert (H0 : sound initial).
  { split; [apply consistent_initial|]. split; constructor. }
  destruct (sound_ui_run es initial H0) as (Hc & Hv & Hsv).
  split; [exact Hv|]. split; [exact Hsv|]. split; [|now apply consistent_membership].
  eapply Forall_impl; [|exact Hv]. cbn. intros c. apply pos_not_zero.
Qed.

End FurtherFacts.

(** * The further properties on concrete inputs *)

Example ClampU8_examples :
  Gfx.ClampU8 (-7) = 0 /\ Gfx.ClampU8 280 = 255 /\ Gfx.ClampU8 161 = 161.
Proof. repeat split. Qed.

Example HandleTextInput_example :
  HandleTextInput "12" 16 [51; 7; 52; 0; 53] true = "123"%string.
Proof. reflexivity. Qed.

Lemma Undo_inverts_RemoveComponent_witness :
  In 1 (ids (componentsData one_resistor))
  /\ componentsData (state_after (RemoveComponent 1 ;; Undo) one_resistor)
     = componentsData one_resistor.
Proof.
  split; [now left|].
  exact (proj1 (Undo_inverts_RemoveComponent (lib := demo_lib)
                  [CallAdd RESISTOR 100%float SERIES] 1 (or_introl eq_refl))).
Defined.

Lemma log_keeps_last_twenty_witness :
  (List.length (opQueue twenty_adds) <= 20)%nat
  /\ opQueue (state_after (push_all ["first"; "second"]%string) twenty_adds)
     = lastn 20 (opQueue twenty_adds ++ map mkOperation ["first"; "second"]%string).
Proof.
  split; [exact (Nat.le_refl 20)|].
  exact (log_keeps_last_twenty ["first"; "second"]%string twenty_adds (Nat.le_refl 20)).
Defined.

Lemma DrawButtonEx_fill_brightens_witness :
  Gfx.valid (Gfx.mkColor 0 150 240 220)
  /\ Gfx.valid (Gfx.DrawButtonEx_fill true (Gfx.mkColor 0 150 240 220))
  /\ Gfx.b (Gfx.DrawButtonEx_fill true (Gfx.mkColor 0 150 240 220))
     = Z.min 255 (240 + 25).
Proof.
  assert (H : Gfx.valid (Gfx.mkColor 0 150 240 220)).
  { unfold Gfx.valid. cbn. lia. }
  split; [exact H|].
  destruct (DrawButtonEx_fill_brightens true (Gfx.mkColor 0 150 240 220) H)
    as (Hvalid & _ & _ & _ & _ & Hhover).
  split; [exact Hvalid | exact (proj2 (proj2 (Hhover eq_refl)))].
Defined.

Lemma HandleTextInput_bounded_witness :
  Z.of_nat (String.length "0123456789abcde") <= 16
  /\ Z.of_nat (String.length (HandleTextInput "0123456789abcde" 16 [102; 103; 104] false))
     <= 16.
Proof.
  assert (H : Z.of_nat (String.length "0123456789abcde") <= 16) by (cbn; lia).
  split; [exact H|].
  exact (proj1 (HandleTextInput_bounded "0123456789abcde" 16 [102; 103; 104] false H)).
Defined.

Lemma DrawAddScreen_accepts_positive_witness :
  StringToDoubleSafe (lib := demo_lib) (textBuffer typed_hundred) = (100%float, true)
  /\ (0 <? 100)%float = true
  /\ componentsData (state_after (DrawAddScreen_AddReleased (lib := demo_lib)) typed_hundred)
     = [mkComponent 1 RESISTOR 100%float SERIES].
Proof.
  split; [reflexivity|]. split; [reflexivity|].
  exact (proj1 (DrawAddScreen_accepts_positive (lib := demo_lib) typed_hundred
                  100%float eq_refl eq_refl)).
Defined.

Example DrawRemoveScreen_examples :
  statusMessage (state_after (DrawRemoveScreen_RemoveReleased demo_stoi) typed_one)
  = "Component removed!"%string
  /\ statusMessage (state_after (DrawRemoveScreen_RemoveReleased demo_stoi) typed_seven)
     = "Not found."%string
  /\ statusMessage (state_after (DrawRemoveScreen_RemoveReleased demo_stoi) one_resistor)
     = "Invalid ID."%string.
Proof. repeat split. Qed.

Lemma assigned_ids_consecutive_witness :
  nextId one_resistor
  + Z.of_nat (count_adds [CallRemove 1; CallAdd CAPACITOR 1%float PARALLEL; CallUndo;
                          CallAdd INDUCTOR 1%float SERIES])
  <= INT_MAX
  /\ assigned_ids (lib := demo_lib)
       [CallRemove 1; CallAdd CAPACITOR 1%float PARALLEL; CallUndo;
        CallAdd INDUCTOR 1%float SERIES] one_resistor
     = [2; 3].
Proof.
  assert (H : nextId one_resistor
              + Z.of_nat (count_adds [CallRemove 1; CallAdd CAPACITOR 1%float PARALLEL;
                                      CallUndo; CallAdd INDUCTOR 1%float SERIES])
              <= INT_MAX) by discriminate.
  split; [exact H|].
  exact (proj1 (assigned_ids_consecutive (lib := demo_lib) _ one_resistor H)).
Defined.
